(** * ClusterSummary reconciler: reference index, feature orchestration,
      finalization, content hash and status scope.

    A shallow embedding of [controllers/clustersummary_controller.go],
    of [prometheusHash] (controllers, prometheus handlers) and of the
    status mutators of [pkg/scope], followed by the properties the design
    document states about them. *)

From stdpp Require Import gmap strings list fin_maps fin_sets.
From Stdlib Require Import ZArith Ascii.

Open Scope string_scope.
Open Scope list_scope.

Set Warnings "-clear-no-such-hyp".

(* ===================================================================== *)
(** * Part I. The program *)
(* ===================================================================== *)

(** ** Kubernetes and API types, as far as the controller reads them *)

Module corev1.
(** [corev1.ObjectReference]: the controller reads [Namespace] and [Name]. *)
Record ObjectReference := mkObjectReference {
  Namespace : string;
  Name : string;
}.

(** [corev1.ConfigMap]: only [Data] (a [map[string]string]) is read. *)
Record ConfigMap := mkConfigMap {
  Data : gmap string string;
}.
End corev1.

Module metav1.
(** [metav1.ObjectMeta]: name and finalizer list of an object. *)
Record ObjectMeta := mkObjectMeta {
  Name : string;
  Finalizers : list string;
}.
End metav1.

Module configv1alpha1.
Inductive FeatureID := FeatureRole | FeatureKyverno | FeaturePrometheus.

Inductive FeatureStatus :=
| FeatureStatusProvisioning
| FeatureStatusProvisioned
| FeatureStatusFailed.

Module KyvernoConfiguration.
Record t := mk { PolicyRefs : list corev1.ObjectReference }.
End KyvernoConfiguration.

Module PrometheusConfiguration.
Record t := mk { PolicyRefs : list corev1.ObjectReference }.
End PrometheusConfiguration.

Record ClusterFeatureSpec := mkClusterFeatureSpec {
  WorkloadRoleRefs : list corev1.ObjectReference;
  KyvernoConfiguration : option KyvernoConfiguration.t;
  PrometheusConfiguration : option PrometheusConfiguration.t;
}.

Record ClusterSummarySpec := mkClusterSummarySpec {
  ClusterNamespace : string;
  ClusterName : string;
  ClusterFeatureSpec_ : ClusterFeatureSpec;
}.

(** One entry of [Status.FeatureSummaries]. A nil [*string] is [None], and
    so is the status of an entry that no call has given one yet. *)
Record FeatureSummary := mkFeatureSummary {
  FeatureID_ : FeatureID;
  Status_ : option FeatureStatus;
  Hash : list Byte.byte;
  FailureReason : option string;
  FailureMessage : option string;
}.

Record ClusterSummaryStatus := mkClusterSummaryStatus {
  FeatureSummaries : list FeatureSummary;
  PolicyPrefix : string;
}.

Record ClusterSummary := mkClusterSummary {
  ObjectMeta : metav1.ObjectMeta;
  Spec : ClusterSummarySpec;
  Status : ClusterSummaryStatus;
}.
End configv1alpha1.

#[global] Instance FeatureID_eq_dec : EqDecision configv1alpha1.FeatureID.
Proof. solve_decision. Defined.

#[global] Instance FeatureStatus_eq_dec : EqDecision configv1alpha1.FeatureStatus.
Proof. solve_decision. Defined.

(** ** String sets *)

(** Modelled from the spec: the [Set] type of package controllers is not part
    of the files covered here (only its tests are). It is a set of strings with
    membership only: [insert] adds an entry, [erase] removes it, [has] tests
    membership, [items] lists the entries, and [difference] lists the entries
    of the receiver that the argument does not have. A freshly allocated
    [&Set{}] is the empty set. *)
Abbreviation Set_ := (gset string).

Definition Set_insert (s : Set_) (entry : string) : Set_ := {[entry]} ∪ s.
Definition Set_erase (s : Set_) (entry : string) : Set_ := s ∖ {[entry]}.
Definition Set_has (s : Set_) (entry : string) : bool := bool_decide (entry ∈ s).
Definition Set_items (s : Set_) : list string := elements s.
Definition Set_len (s : Set_) : nat := length (Set_items s).
Definition Set_difference (s b : Set_) : list string :=
  filter (λ k, Set_has b k = false) (Set_items s).

(** ** The scope wrapping a ClusterSummary *)

Module scope.
Record ClusterSummaryScope := mkScope {
  ClusterSummary : configv1alpha1.ClusterSummary;
}.

(** [Name()] returns the name of the wrapped ClusterSummary. *)
Definition Name (s : ClusterSummaryScope) : string :=
  metav1.Name (configv1alpha1.ObjectMeta (ClusterSummary s)).
End scope.

(** ** Reference index *)

(** The entry-key helper and the two kind constants of package controllers
    are declared elsewhere in the package; the index code is read with them
    as parameters. *)
Class EntryKeys := {
  getEntryKey : string → string → string → string;
  WorkloadRole : string;
  ConfigMap : string;
}.

(** Modelled from the spec: an instance of the entry keys following the
    comment on [ReferenceMap]: the referenced object name is
    <kind>-<namespace>-<name> or <kind>-<name>. *)
Definition dashEntryKeys : EntryKeys := {|
  getEntryKey kind ns name :=
    if decide (ns = "") then kind +:+ "-" +:+ name
    else kind +:+ "-" +:+ ns +:+ "-" +:+ name;
  WorkloadRole := "WorkloadRole";
  ConfigMap := "ConfigMap";
|}.

(** The two maps of [ClusterSummaryReconciler]. A Go lookup that yields the
    nil pointer is [None]; map values are the pointed-to sets. *)
Record ClusterSummaryReconciler := mkReconciler {
  ReferenceMap : gmap string (gset string);
  ClusterSummaryMap : gmap string (gset string);
}.

Definition getCurrentReferences `{EntryKeys}
    (clusterSummaryScope : scope.ClusterSummaryScope) : Set_ :=
  let spec := configv1alpha1.ClusterFeatureSpec_
                (configv1alpha1.Spec (scope.ClusterSummary clusterSummaryScope)) in
  let currentReferences : Set_ := ∅ in
  let currentReferences :=
    foldl (λ s ref, Set_insert s (getEntryKey WorkloadRole "" (corev1.Name ref)))
          currentReferences (configv1alpha1.WorkloadRoleRefs spec) in
  let currentReferences :=
    match configv1alpha1.KyvernoConfiguration spec with
    | Some k =>
        foldl (λ s ref, Set_insert s
                 (getEntryKey ConfigMap (corev1.Namespace ref) (corev1.Name ref)))
              currentReferences (configv1alpha1.KyvernoConfiguration.PolicyRefs k)
    | None => currentReferences
    end in
  match configv1alpha1.PrometheusConfiguration spec with
  | Some p =>
      foldl (λ s ref, Set_insert s
               (getEntryKey ConfigMap (corev1.Namespace ref) (corev1.Name ref)))
            currentReferences (configv1alpha1.PrometheusConfiguration.PolicyRefs p)
  | None => currentReferences
  end.

(** [getReferenceMapForEntry] returns the set stored for [entry], storing a
    fresh empty one first when there is none. *)
Definition getReferenceMapForEntry (r : ClusterSummaryReconciler) (entry : string)
    : Set_ * ClusterSummaryReconciler :=
  match ReferenceMap r !! entry with
  | Some s => (s, r)
  | None =>
      (∅, {| ReferenceMap := <[entry := ∅]> (ReferenceMap r);
             ClusterSummaryMap := ClusterSummaryMap r |})
  end.

(** [r.getReferenceMapForEntry(entry).insert(name)]: the returned pointer is
    the one kept in the map, so the map sees the insertion. *)
Definition insertConsumer (name : string) (r : ClusterSummaryReconciler)
    (entry : string) : ClusterSummaryReconciler :=
  let '(s, r') := getReferenceMapForEntry r entry in
  {| ReferenceMap := <[entry := Set_insert s name]> (ReferenceMap r');
     ClusterSummaryMap := ClusterSummaryMap r' |}.

(** [r.getReferenceMapForEntry(entry).erase(name)]. *)
Definition eraseConsumer (name : string) (r : ClusterSummaryReconciler)
    (entry : string) : ClusterSummaryReconciler :=
  let '(s, r') := getReferenceMapForEntry r entry in
  {| ReferenceMap := <[entry := Set_erase s name]> (ReferenceMap r');
     ClusterSummaryMap := ClusterSummaryMap r' |}.

(** The body of [updatesMaps] once [currentReferences] is known; the mutex
    makes it one atomic step on the two maps. *)
Definition updateReferences (r : ClusterSummaryReconciler) (name : string)
    (currentReferences : Set_) : ClusterSummaryReconciler :=
  let toBeRemoved :=
    match ClusterSummaryMap r !! name with
    | Some v => Set_difference v currentReferences
    | None => []
    end in
  let r := foldl (insertConsumer name) r (Set_items currentReferences) in
  let r := foldl (eraseConsumer name) r toBeRemoved in
  {| ReferenceMap := ReferenceMap r;
     ClusterSummaryMap := <[name := currentReferences]> (ClusterSummaryMap r) |}.

Definition updatesMaps `{EntryKeys} (r : ClusterSummaryReconciler)
    (clusterSummaryScope : scope.ClusterSummaryScope) : ClusterSummaryReconciler :=
  let currentReferences := getCurrentReferences clusterSummaryScope in
  updateReferences r (scope.Name clusterSummaryScope) currentReferences.

(** The reconciler before any reconciliation: both maps empty. *)
Definition emptyReconciler : ClusterSummaryReconciler :=
  {| ReferenceMap := ∅; ClusterSummaryMap := ∅ |}.

(** The states reached by a sequence of [updatesMaps] calls, one per call. *)
Fixpoint updatesMaps_trace `{EntryKeys} (r : ClusterSummaryReconciler)
    (calls : list scope.ClusterSummaryScope) : list ClusterSummaryReconciler :=
  match calls with
  | [] => []
  | s :: calls' => let r' := updatesMaps r s in r' :: updatesMaps_trace r' calls'
  end.

(** [e ∈ consumes[c]]: entry [e] is in the reference set stored for [c]. *)
Definition consumes (r : ClusterSummaryReconciler) (c e : string) : Prop :=
  ∃ s, ClusterSummaryMap r !! c = Some s ∧ e ∈ s.

(** [c ∈ referencedBy[e]]: consumer [c] is in the consumer set of [e]. *)
Definition referencedBy (r : ClusterSummaryReconciler) (e c : string) : Prop :=
  ∃ s, ReferenceMap r !! e = Some s ∧ c ∈ s.

Definition bidirectional (r : ClusterSummaryReconciler) : Prop :=
  ∀ c e, consumes r c e ↔ referencedBy r e c.

(** ** Errors, results and the API client *)

(** A Go [error]; the nil error is [None] of [option error]. Errors of the
    API machinery carry a status reason, of which the controller only asks
    whether it is NotFound. *)
Inductive error :=
| StatusNotFound (msg : string)
| OtherError (msg : string).

Module apierrors.
Definition IsNotFound (err : error) : bool :=
  match err with
  | StatusNotFound _ => true
  | OtherError _ => false
  end.
End apierrors.

Module time.
(** [time.Duration] counts nanoseconds. *)
Definition Duration := Z.
Definition Second : Duration := 1000000000%Z.
End time.

Module reconcile.
Record Result := mkResult {
  Requeue : bool;
  RequeueAfter : time.Duration;
}.

(** [reconcile.Result{}] *)
Definition zero : Result := {| Requeue := false; RequeueAfter := 0%Z |}.
End reconcile.

Definition deleteRequeueAfter : time.Duration := (20 * time.Second)%Z.
Definition normalRequeueAfter : time.Duration := (20 * time.Second)%Z.

Module client.
(** What [Get] answers for the two kinds of object the code fetches. For a
    CAPI Cluster only the error is looked at; for a ConfigMap the object
    is read when the error is nil. *)
Record Client := mkClient {
  Get_Cluster : string → string → option error;
  Get_ConfigMap : string → string → error + corev1.ConfigMap;
}.
End client.

(** ** Finalizers (controller-runtime's controllerutil) *)

Module controllerutil.
Definition ContainsFinalizer (o : metav1.ObjectMeta) (finalizer : string) : bool :=
  existsb (λ e, bool_decide (e = finalizer)) (metav1.Finalizers o).

(** Drops every occurrence of [finalizer], telling whether one was found. *)
Fixpoint remove (f : list string) (finalizer : string) : list string * bool :=
  match f with
  | [] => ([], false)
  | e :: f' =>
      let '(rest, finalizersUpdated) := remove f' finalizer in
      if decide (e = finalizer) then (rest, true)
      else (e :: rest, finalizersUpdated)
  end.

Definition RemoveFinalizer (o : metav1.ObjectMeta) (finalizer : string)
    : metav1.ObjectMeta * bool :=
  let '(f, finalizersUpdated) := remove (metav1.Finalizers o) finalizer in
  ({| metav1.Name := metav1.Name o; metav1.Finalizers := f |}, finalizersUpdated).
End controllerutil.

(** ** Feature descriptors *)

(** The handlers a feature descriptor points to, by name. *)
Module handlers.
Inductive hashFn := workloadRoleHash | kyvernoHash | prometheusHash.
Inductive deployFn :=
| deployWorkloadRoles | deployKyverno | deployPrometheus
| unDeployWorkloadRoles | unDeployKyverno | unDeployPrometheus.
Inductive refsFn := getWorkloadRoleRefs | getKyvernoRefs | getPrometheusRefs.
End handlers.

Module feature.
(** The [feature] struct; a field left out of a literal is nil ([None]). *)
Record t := mk {
  id : configv1alpha1.FeatureID;
  currentHash : handlers.hashFn;
  deploy : handlers.deployFn;
  getRefs : option handlers.refsFn;
}.
End feature.

(** ** One reconciliation pass *)

(** The methods [deployFeature] and [undeployFeature] of the reconciler and
    the finalizer constant are declared elsewhere in the repository. The pass
    is read with them as parameters over an arbitrary state [World] of the
    collaborators (API server, deployer, target cluster). Both methods may
    fail, and they change the control resource through the status scope
    only. *)
Class Collaborators (World : Type) := {
  Client : World → client.Client;
  deployFeatureImpl :
    feature.t → configv1alpha1.ClusterSummary → World →
    option error * configv1alpha1.ClusterSummaryStatus * World;
  undeployFeatureImpl :
    feature.t → configv1alpha1.ClusterSummary → World →
    option error * configv1alpha1.ClusterSummaryStatus * World;
  ClusterSummaryFinalizer : string;
}.

(** A call handed to one of the two absent methods. *)
Inductive Call :=
| CallDeployFeature (f : feature.t)
| CallUndeployFeature (f : feature.t).

(** What a pass works on: the ClusterSummary behind the scope pointer, the
    collaborators, and the record of calls made so far. *)
Record PassState (World : Type) := mkPassState {
  clusterSummary : configv1alpha1.ClusterSummary;
  world : World;
  calls : list Call;
}.
Arguments mkPassState {World}.
Arguments clusterSummary {World}.
Arguments world {World}.
Arguments calls {World}.

Definition withStatus (cs : configv1alpha1.ClusterSummary)
    (status : configv1alpha1.ClusterSummaryStatus) : configv1alpha1.ClusterSummary :=
  {| configv1alpha1.ObjectMeta := configv1alpha1.ObjectMeta cs;
     configv1alpha1.Spec := configv1alpha1.Spec cs;
     configv1alpha1.Status := status |}.

Definition withObjectMeta (cs : configv1alpha1.ClusterSummary)
    (meta : metav1.ObjectMeta) : configv1alpha1.ClusterSummary :=
  {| configv1alpha1.ObjectMeta := meta;
     configv1alpha1.Spec := configv1alpha1.Spec cs;
     configv1alpha1.Status := configv1alpha1.Status cs |}.

(** State passing for the pass. *)
Definition M (World A : Type) : Type := PassState World → A * PassState World.

Definition ret {World A} (a : A) : M World A := λ st, (a, st).

Definition bind {World A B} (m : M World A) (k : A → M World B) : M World B :=
  λ st, let '(a, st') := m st in k a st'.

Notation "x <~ m ;; k" := (bind m (λ x, k))
  (at level 100, m at next level, right associativity).

Definition getClusterSummary {World} : M World configv1alpha1.ClusterSummary :=
  λ st, (clusterSummary st, st).

Definition getWorld {World} : M World World := λ st, (world st, st).

Definition putClusterSummary {World} (cs : configv1alpha1.ClusterSummary) : M World unit :=
  λ st, (tt, {| clusterSummary := cs; world := world st; calls := calls st |}).

(** The first non-nil error of the three, in the order the code tests them. *)
Definition firstError (workloadErr kyvernoErr prometheusErr : option error)
    : option error :=
  match workloadErr with
  | Some _ => workloadErr
  | None =>
      match kyvernoErr with
      | Some _ => kyvernoErr
      | None => prometheusErr
      end
  end.

Section Orchestrator.
Context {World : Type} `{!Collaborators World}.

Definition deployFeature (f : feature.t) : M World (option error) :=
  λ st,
    let '(err, status, w) := deployFeatureImpl f (clusterSummary st) (world st) in
    (err, {| clusterSummary := withStatus (clusterSummary st) status;
             world := w;
             calls := calls st ++ [CallDeployFeature f] |}).

Definition undeployFeature (f : feature.t) : M World (option error) :=
  λ st,
    let '(err, status, w) := undeployFeatureImpl f (clusterSummary st) (world st) in
    (err, {| clusterSummary := withStatus (clusterSummary st) status;
             world := w;
             calls := calls st ++ [CallUndeployFeature f] |}).

Definition deployRoles : M World (option error) :=
  let f := {| feature.id := configv1alpha1.FeatureRole;
              feature.currentHash := handlers.workloadRoleHash;
              feature.deploy := handlers.deployWorkloadRoles;
              feature.getRefs := Some handlers.getWorkloadRoleRefs |} in
  deployFeature f.

Definition deployKyverno : M World (option error) :=
  cs <~ getClusterSummary ;;
  match configv1alpha1.KyvernoConfiguration
          (configv1alpha1.ClusterFeatureSpec_ (configv1alpha1.Spec cs)) with
  | None => ret None
  | Some _ =>
      let f := {| feature.id := configv1alpha1.FeatureKyverno;
                  feature.currentHash := handlers.kyvernoHash;
                  feature.deploy := handlers.deployKyverno;
                  feature.getRefs := Some handlers.getKyvernoRefs |} in
      deployFeature f
  end.

Definition deployPrometheus : M World (option error) :=
  cs <~ getClusterSummary ;;
  match configv1alpha1.PrometheusConfiguration
          (configv1alpha1.ClusterFeatureSpec_ (configv1alpha1.Spec cs)) with
  | None => ret None
  | Some _ =>
      let f := {| feature.id := configv1alpha1.FeaturePrometheus;
                  feature.currentHash := handlers.prometheusHash;
                  feature.deploy := handlers.deployPrometheus;
                  feature.getRefs := Some handlers.getPrometheusRefs |} in
      deployFeature f
  end.

Definition deploy : M World (option error) :=
  workloadErr <~ deployRoles ;;
  kyvernoErr <~ deployKyverno ;;
  prometheusErr <~ deployPrometheus ;;
  ret (firstError workloadErr kyvernoErr prometheusErr).

Definition undeployRoles : M World (option error) :=
  let f := {| feature.id := configv1alpha1.FeatureRole;
              feature.currentHash := handlers.workloadRoleHash;
              feature.deploy := handlers.unDeployWorkloadRoles;
              feature.getRefs := None |} in
  undeployFeature f.

Definition undeployKyverno : M World (option error) :=
  let f := {| feature.id := configv1alpha1.FeatureKyverno;
              feature.currentHash := handlers.kyvernoHash;
              feature.deploy := handlers.unDeployKyverno;
              feature.getRefs := None |} in
  undeployFeature f.

Definition undeployPrometheus : M World (option error) :=
  let f := {| feature.id := configv1alpha1.FeaturePrometheus;
              feature.currentHash := handlers.prometheusHash;
              feature.deploy := handlers.unDeployPrometheus;
              feature.getRefs := None |} in
  undeployFeature f.

Definition undeploy : M World (option error) :=
  clusterSummary <~ getClusterSummary ;;
  w <~ getWorld ;;
  (* If CAPI Cluster is not found, there is nothing to clean up. *)
  let err := client.Get_Cluster (Client w)
               (configv1alpha1.ClusterNamespace (configv1alpha1.Spec clusterSummary))
               (configv1alpha1.ClusterName (configv1alpha1.Spec clusterSummary)) in
  match err with
  | Some e => if apierrors.IsNotFound e then ret None else ret (Some e)
  | None =>
      workloadErr <~ undeployRoles ;;
      kyvernoErr <~ undeployKyverno ;;
      prometheusErr <~ undeployPrometheus ;;
      ret (firstError workloadErr kyvernoErr prometheusErr)
  end.

Definition reconcileDelete : M World (reconcile.Result * option error) :=
  err <~ undeploy ;;
  match err with
  | Some _ =>
      ret ({| reconcile.Requeue := true;
              reconcile.RequeueAfter := deleteRequeueAfter |}, None)
  | None =>
      (* Cluster is deleted so remove the finalizer. *)
      cs <~ getClusterSummary ;;
      if controllerutil.ContainsFinalizer (configv1alpha1.ObjectMeta cs)
           ClusterSummaryFinalizer
      then
        let '(meta, finalizersUpdated) :=
          controllerutil.RemoveFinalizer (configv1alpha1.ObjectMeta cs)
            ClusterSummaryFinalizer in
        _ <~ putClusterSummary (withObjectMeta cs meta) ;;
        if negb finalizersUpdated
        then ret (reconcile.zero, Some (OtherError "failed to remove finalizer"))
        else ret (reconcile.zero, None)
      else ret (reconcile.zero, None)
  end.
End Orchestrator.

(** ** Policy name prefix *)

(** The random source behind cluster-api's [util.RandomString]: [Intn n]
    draws a number below [n] and moves the generator on. *)
Class RandomSource (Rng : Type) := {
  Intn : nat → Rng → nat * Rng;
  Intn_lt : ∀ n g, 0 < n → (Intn n g).1 < n;
}.

Module util.
(** The alphanumeric set for random string generation. *)
Definition CharSet : string := "0123456789abcdefghijklmnopqrstuvwxyz".

(** [CharSet[i]]; indexing past the end does not happen, see [Intn_lt]. *)
Definition charAt (i : nat) : ascii :=
  match String.get i CharSet with
  | Some ch => ch
  | None => "0"%char
  end.

(** [RandomString n]: [n] characters, each drawn from [CharSet]. *)
Fixpoint RandomString {Rng} `{!RandomSource Rng} (n : nat) (g : Rng) : string * Rng :=
  match n with
  | 0 => ("", g)
  | S n' =>
      let '(i, g) := Intn (String.length CharSet) g in
      let '(rest, g) := RandomString n' g in
      (String (charAt i) rest, g)
  end.
End util.

(** A small linear congruential generator, to run the code on examples. *)
Definition lcgIntn (n : nat) (g : nat) : nat * nat :=
  (g `mod` n, (g * 75 + 74) `mod` 1009).

Definition withPolicyPrefix (cs : configv1alpha1.ClusterSummary) (prefix : string)
    : configv1alpha1.ClusterSummary :=
  withStatus cs
    {| configv1alpha1.FeatureSummaries :=
         configv1alpha1.FeatureSummaries (configv1alpha1.Status cs);
       configv1alpha1.PolicyPrefix := prefix |}.

Definition generatePolicyNamePrefix {Rng} `{!RandomSource Rng}
    (cs : configv1alpha1.ClusterSummary) (g : Rng)
    : configv1alpha1.ClusterSummary * Rng :=
  if decide (configv1alpha1.PolicyPrefix (configv1alpha1.Status cs) = "") then
    let length := 10 in
    let '(suffix, g) := util.RandomString length g in
    (withPolicyPrefix cs ("cs" +:+ suffix), g)
  else (cs, g).

(** [n] successive calls on the same control resource. *)
Fixpoint generatePolicyNamePrefix_times {Rng} `{!RandomSource Rng} (n : nat)
    (cs : configv1alpha1.ClusterSummary) (g : Rng)
    : configv1alpha1.ClusterSummary * Rng :=
  match n with
  | 0 => (cs, g)
  | S n' =>
      let '(cs, g) := generatePolicyNamePrefix cs g in
      generatePolicyNamePrefix_times n' cs g
  end.

(** Digits and ASCII letters. *)
Definition alphanumeric (ch : ascii) : bool :=
  let n := nat_of_ascii ch in
  (Nat.leb 48 n && Nat.leb n 57) || (Nat.leb 65 n && Nat.leb n 90)
  || (Nat.leb 97 n && Nat.leb n 122).

Fixpoint all_alphanumeric (s : string) : bool :=
  match s with
  | EmptyString => true
  | String ch s' => alphanumeric ch && all_alphanumeric s'
  end.

(** The generator after one draw of [util.RandomString], and the index
    drawn by its [k]-th draw when started at [g]. *)
Definition nextGenerator {Rng} `{!RandomSource Rng} (g : Rng) : Rng :=
  (Intn (String.length util.CharSet) g).2.

Definition drawAt {Rng} `{!RandomSource Rng} (k : nat) (g : Rng) : nat :=
  (Intn (String.length util.CharSet) (Nat.iter k nextGenerator g)).1.

(** ** Content hash of the Prometheus feature *)

(** SHA-256 and go-render's [AsCode] are libraries; the hash code is read
    with them as parameters. A hasher is the text written to it so far. *)
Class HashLibs := {
  sha256_digest : string → list Byte.byte;
  render_AsCode : gmap string string → string;
}.

Module sha256.
Definition hasher := string.
Definition New : hasher := "".
Definition Write (h : hasher) (p : string) : hasher := h +:+ p.
(** [h.Sum(nil)] *)
Definition Sum `{HashLibs} (h : hasher) : list Byte.byte := sha256_digest h.
End sha256.

(** The loop of [prometheusHash] over the policy references: it stops at the
    first fetch error that is not NotFound, and otherwise grows [config]. *)
Fixpoint prometheusHash_refs `{HashLibs} (c : client.Client)
    (refs : list corev1.ObjectReference) (config : string) : error + string :=
  match refs with
  | [] => inr config
  | reference :: refs' =>
      match client.Get_ConfigMap c (corev1.Namespace reference) (corev1.Name reference) with
      | inl err =>
          if apierrors.IsNotFound err then prometheusHash_refs c refs' config
          else inl err
      | inr configmap =>
          prometheusHash_refs c refs' (config +:+ render_AsCode (corev1.Data configmap))
      end
  end.

(** [prometheusHash] returns [([]byte, error)]; a nil slice is [None]. *)
Definition prometheusHash `{HashLibs} (c : client.Client)
    (clusterSummaryScope : scope.ClusterSummaryScope)
    : option (list Byte.byte) * option error :=
  let h := sha256.New in
  let config := "" in
  let clusterSummary := scope.ClusterSummary clusterSummaryScope in
  match configv1alpha1.PrometheusConfiguration
          (configv1alpha1.ClusterFeatureSpec_ (configv1alpha1.Spec clusterSummary)) with
  | None => (Some (sha256.Sum h), None)
  | Some p =>
      match prometheusHash_refs c (configv1alpha1.PrometheusConfiguration.PolicyRefs p) config with
      | inl err => (None, Some err)
      | inr config => (Some (sha256.Sum (sha256.Write h config)), None)
      end
  end.

(** The scope of a ClusterSummary whose Prometheus configuration lists [refs]. *)
Definition prometheusScope (name : string) (refs : list corev1.ObjectReference)
    : scope.ClusterSummaryScope :=
  scope.mkScope
    {| configv1alpha1.ObjectMeta := {| metav1.Name := name; metav1.Finalizers := [] |};
       configv1alpha1.Spec :=
         {| configv1alpha1.ClusterNamespace := "";
            configv1alpha1.ClusterName := "";
            configv1alpha1.ClusterFeatureSpec_ :=
              {| configv1alpha1.WorkloadRoleRefs := [];
                 configv1alpha1.KyvernoConfiguration := None;
                 configv1alpha1.PrometheusConfiguration :=
                   Some (configv1alpha1.PrometheusConfiguration.mk refs) |} |};
       configv1alpha1.Status :=
         {| configv1alpha1.FeatureSummaries := [];
            configv1alpha1.PolicyPrefix := "" |} |}.

(** ** Status scope mutators *)

(** Modelled from the spec: the mutators of [pkg/scope] are not part of the
    files covered here (only their tests are). Each finds or creates the
    feature summary entry by feature identifier: the first entry with that
    identifier is overwritten in place, and when there is none a new entry is
    appended at the end. *)
Fixpoint updateFirst (featureID : configv1alpha1.FeatureID)
    (f : configv1alpha1.FeatureSummary → configv1alpha1.FeatureSummary)
    (l : list configv1alpha1.FeatureSummary)
    : option (list configv1alpha1.FeatureSummary) :=
  match l with
  | [] => None
  | fs :: l' =>
      if decide (configv1alpha1.FeatureID_ fs = featureID) then Some (f fs :: l')
      else match updateFirst featureID f l' with
           | Some l'' => Some (fs :: l'')
           | None => None
           end
  end.

Definition findOrCreate (featureID : configv1alpha1.FeatureID)
    (f : configv1alpha1.FeatureSummary → configv1alpha1.FeatureSummary)
    (fresh : configv1alpha1.FeatureSummary)
    (l : list configv1alpha1.FeatureSummary) : list configv1alpha1.FeatureSummary :=
  match updateFirst featureID f l with
  | Some l' => l'
  | None => l ++ [fresh]
  end.

(** Modelled from the spec: [setStatus(featureID, status, hash)] on the list
    of feature summaries. *)
Definition SetFeatureStatus (featureID : configv1alpha1.FeatureID)
    (status : configv1alpha1.FeatureStatus) (hash : list Byte.byte)
    (l : list configv1alpha1.FeatureSummary) : list configv1alpha1.FeatureSummary :=
  findOrCreate featureID
    (λ fs, {| configv1alpha1.FeatureID_ := configv1alpha1.FeatureID_ fs;
              configv1alpha1.Status_ := Some status;
              configv1alpha1.Hash := hash;
              configv1alpha1.FailureReason := configv1alpha1.FailureReason fs;
              configv1alpha1.FailureMessage := configv1alpha1.FailureMessage fs |})
    {| configv1alpha1.FeatureID_ := featureID;
       configv1alpha1.Status_ := Some status;
       configv1alpha1.Hash := hash;
       configv1alpha1.FailureReason := None;
       configv1alpha1.FailureMessage := None |}
    l.

(** Modelled from the spec: [setFailureMessage(featureID, *string)]. *)
Definition SetFailureMessage (featureID : configv1alpha1.FeatureID)
    (failureMessage : option string)
    (l : list configv1alpha1.FeatureSummary) : list configv1alpha1.FeatureSummary :=
  findOrCreate featureID
    (λ fs, {| configv1alpha1.FeatureID_ := configv1alpha1.FeatureID_ fs;
              configv1alpha1.Status_ := configv1alpha1.Status_ fs;
              configv1alpha1.Hash := configv1alpha1.Hash fs;
              configv1alpha1.FailureReason := configv1alpha1.FailureReason fs;
              configv1alpha1.FailureMessage := failureMessage |})
    {| configv1alpha1.FeatureID_ := featureID;
       configv1alpha1.Status_ := None;
       configv1alpha1.Hash := [];
       configv1alpha1.FailureReason := None;
       configv1alpha1.FailureMessage := failureMessage |}
    l.

(** Modelled from the spec: [setFailureReason(featureID, *string)]. *)
Definition SetFailureReason (featureID : configv1alpha1.FeatureID)
    (failureReason : option string)
    (l : list configv1alpha1.FeatureSummary) : list configv1alpha1.FeatureSummary :=
  findOrCreate featureID
    (λ fs, {| configv1alpha1.FeatureID_ := configv1alpha1.FeatureID_ fs;
              configv1alpha1.Status_ := configv1alpha1.Status_ fs;
              configv1alpha1.Hash := configv1alpha1.Hash fs;
              configv1alpha1.FailureReason := failureReason;
              configv1alpha1.FailureMessage := configv1alpha1.FailureMessage fs |})
    {| configv1alpha1.FeatureID_ := featureID;
       configv1alpha1.Status_ := None;
       configv1alpha1.Hash := [];
       configv1alpha1.FailureReason := failureReason;
       configv1alpha1.FailureMessage := None |}
    l.

(** A call to one of the mutators. *)
Inductive Mutation :=
| MSetFeatureStatus (featureID : configv1alpha1.FeatureID)
    (status : configv1alpha1.FeatureStatus) (hash : list Byte.byte)
| MSetFailureMessage (featureID : configv1alpha1.FeatureID) (msg : option string)
| MSetFailureReason (featureID : configv1alpha1.FeatureID) (reason : option string).

Definition mutate (l : list configv1alpha1.FeatureSummary) (m : Mutation)
    : list configv1alpha1.FeatureSummary :=
  match m with
  | MSetFeatureStatus featureID status hash => SetFeatureStatus featureID status hash l
  | MSetFailureMessage featureID msg => SetFailureMessage featureID msg l
  | MSetFailureReason featureID reason => SetFailureReason featureID reason l
  end.

(** At most one entry per feature identifier. *)
Definition oneEntryPerFeature (l : list configv1alpha1.FeatureSummary) : Prop :=
  NoDup (configv1alpha1.FeatureID_ <$> l).

(** The generator above as a random source. *)
Definition lcgSource : RandomSource nat := {|
  Intn := lcgIntn;
  Intn_lt := λ n g (H : 0 < n),
    Nat.mod_upper_bound g n (proj2 (Nat.neq_0_lt_0 n) H);
|}.

(** ** Reading the content hash *)

(** The fetch of a reference succeeds or answers NotFound. *)
Definition fetchTolerated (c : client.Client) (reference : corev1.ObjectReference) : Prop :=
  match client.Get_ConfigMap c (corev1.Namespace reference) (corev1.Name reference) with
  | inl err => apierrors.IsNotFound err = true
  | inr _ => True
  end.

(** The rendering of the ConfigMaps that exist, in the order of the
    references; a reference whose fetch fails adds nothing. *)
Fixpoint renderFound `{HashLibs} (c : client.Client)
    (refs : list corev1.ObjectReference) : string :=
  match refs with
  | [] => ""
  | reference :: refs' =>
      match client.Get_ConfigMap c (corev1.Namespace reference) (corev1.Name reference) with
      | inl _ => renderFound c refs'
      | inr configmap => render_AsCode (corev1.Data configmap) +:+ renderFound c refs'
      end
  end.

Definition prometheusRefs (s : scope.ClusterSummaryScope)
    : option (list corev1.ObjectReference) :=
  configv1alpha1.PrometheusConfiguration.PolicyRefs <$>
    configv1alpha1.PrometheusConfiguration
      (configv1alpha1.ClusterFeatureSpec_
         (configv1alpha1.Spec (scope.ClusterSummary s))).

(** Stand-ins for the two libraries, to run the hash code on examples: the
    digest is the bytes of the text, the rendering lists keys and values. *)
Definition toyHashLibs : HashLibs := {|
  sha256_digest s := String.list_byte_of_string s;
  render_AsCode data :=
    foldr (λ kv acc, kv.1 +:+ "=" +:+ kv.2 +:+ ";" +:+ acc) "" (map_to_list data);
|}.

(** A client that knows one ConfigMap, answers NotFound for the name
    "missing" and a server error for anything else. *)
Definition exampleClient : client.Client := {|
  client.Get_Cluster _ _ := None;
  client.Get_ConfigMap ns name :=
    if decide (name = "rules") then inr (corev1.mkConfigMap {[ "k" := "v" ]})
    else if decide (name = "missing") then inl (StatusNotFound "configmap not found")
    else inl (OtherError "internal error");
|}.

(** ** Reading a pass *)

(** The features handed to [deployFeature], in call order. *)
Definition deployedFeatures (l : list Call) : list configv1alpha1.FeatureID :=
  omap (λ c, match c with
             | CallDeployFeature f => Some (feature.id f)
             | CallUndeployFeature _ => None
             end) l.

(** The features handed to [undeployFeature], in call order. *)
Definition undeployedFeatures (l : list Call) : list configv1alpha1.FeatureID :=
  omap (λ c, match c with
             | CallUndeployFeature f => Some (feature.id f)
             | CallDeployFeature _ => None
             end) l.

Definition featureSpec {World} (st : PassState World) : configv1alpha1.ClusterFeatureSpec :=
  configv1alpha1.ClusterFeatureSpec_ (configv1alpha1.Spec (clusterSummary st)).

(** A feature's configuration is not declared in the spec: no role
    reference, or a nil Kyverno or Prometheus configuration. *)
Definition notConfigured (spec : configv1alpha1.ClusterFeatureSpec)
    (id : configv1alpha1.FeatureID) : Prop :=
  match id with
  | configv1alpha1.FeatureRole => configv1alpha1.WorkloadRoleRefs spec = []
  | configv1alpha1.FeatureKyverno => configv1alpha1.KyvernoConfiguration spec = None
  | configv1alpha1.FeaturePrometheus => configv1alpha1.PrometheusConfiguration spec = None
  end.

(** The deploy step of the normal path for each feature. *)
Definition deployStep {World} `{!Collaborators World} (id : configv1alpha1.FeatureID)
    : M World (option error) :=
  match id with
  | configv1alpha1.FeatureRole => deployRoles
  | configv1alpha1.FeatureKyverno => deployKyverno
  | configv1alpha1.FeaturePrometheus => deployPrometheus
  end.

(** The step returns success and has called nothing: the pass state, call
    record included, is the one it started from. *)
Definition skippedWhenNotConfigured {World} `{!Collaborators World}
    (st : PassState World) (id : configv1alpha1.FeatureID) : Prop :=
  notConfigured (featureSpec st) id → deployStep id st = (None, st).

(** Collaborators that answer from a script: what the cluster fetch returns
    and which features fail to deploy or undeploy. They serve to run the pass
    on examples. *)
Record Script := mkScript {
  clusterGet : option error;
  deployOutcome : configv1alpha1.FeatureID → option error;
  undeployOutcome : configv1alpha1.FeatureID → option error;
}.

Definition scripted : Collaborators Script := {|
  Client w :=
    {| client.Get_Cluster _ _ := clusterGet w;
       client.Get_ConfigMap _ _ := inl (StatusNotFound "not found") |};
  deployFeatureImpl f cs w :=
    (deployOutcome w (feature.id f), configv1alpha1.Status cs, w);
  undeployFeatureImpl f cs w :=
    (undeployOutcome w (feature.id f), configv1alpha1.Status cs, w);
  ClusterSummaryFinalizer := "clustersummaryfinalizer.projectsveltos.io";
|}.

Definition exampleSummary (finalizers : list string)
    (spec : configv1alpha1.ClusterFeatureSpec) : configv1alpha1.ClusterSummary :=
  {| configv1alpha1.ObjectMeta :=
       {| metav1.Name := "c"; metav1.Finalizers := finalizers |};
     configv1alpha1.Spec :=
       {| configv1alpha1.ClusterNamespace := "default";
          configv1alpha1.ClusterName := "workload";
          configv1alpha1.ClusterFeatureSpec_ := spec |};
     configv1alpha1.Status :=
       {| configv1alpha1.FeatureSummaries := [];
          configv1alpha1.PolicyPrefix := "" |} |}.

(** A spec that declares nothing, and one that declares all three features. *)
Definition emptySpec : configv1alpha1.ClusterFeatureSpec :=
  {| configv1alpha1.WorkloadRoleRefs := [];
     configv1alpha1.KyvernoConfiguration := None;
     configv1alpha1.PrometheusConfiguration := None |}.

Definition fullSpec : configv1alpha1.ClusterFeatureSpec :=
  {| configv1alpha1.WorkloadRoleRefs := [corev1.mkObjectReference "" "A"];
     configv1alpha1.KyvernoConfiguration :=
       Some (configv1alpha1.KyvernoConfiguration.mk [corev1.mkObjectReference "ns" "k"]);
     configv1alpha1.PrometheusConfiguration :=
       Some (configv1alpha1.PrometheusConfiguration.mk [corev1.mkObjectReference "ns" "p"]) |}.

Definition allSucceed : configv1alpha1.FeatureID → option error := λ _, None.

Definition rolesFail : configv1alpha1.FeatureID → option error :=
  λ id, match id with
        | configv1alpha1.FeatureRole => Some (OtherError "roles failed")
        | _ => None
        end.

Definition examplePass (finalizers : list string)
    (spec : configv1alpha1.ClusterFeatureSpec) (w : Script) : PassState Script :=
  {| clusterSummary := exampleSummary finalizers spec; world := w; calls := [] |}.

(** Scopes used to run the index code on examples. *)
Definition exampleScope (name : string) (roles : list string)
    : scope.ClusterSummaryScope :=
  scope.mkScope
    {| configv1alpha1.ObjectMeta := {| metav1.Name := name; metav1.Finalizers := [] |};
       configv1alpha1.Spec :=
         {| configv1alpha1.ClusterNamespace := "default";
            configv1alpha1.ClusterName := "workload";
            configv1alpha1.ClusterFeatureSpec_ :=
              {| configv1alpha1.WorkloadRoleRefs :=
                   (λ n, corev1.mkObjectReference "" n) <$> roles;
                 configv1alpha1.KyvernoConfiguration := None;
                 configv1alpha1.PrometheusConfiguration := None |} |};
       configv1alpha1.Status :=
         {| configv1alpha1.FeatureSummaries := [];
            configv1alpha1.PolicyPrefix := "" |} |}.

(** Case analysis on the membership tests left by the loops. *)
Ltac index_cases :=
  repeat case_decide; simplify_eq; try done;
  first [ exfalso; set_solver | f_equal; set_solver ].

(** ** Further handlers and callers *)

(** [getPrometheusRefs]: the policy references of the Prometheus
    configuration, and the nil slice when there is none. *)
Definition getPrometheusRefs (clusterSummary : configv1alpha1.ClusterSummary)
    : list corev1.ObjectReference :=
  match configv1alpha1.PrometheusConfiguration
          (configv1alpha1.ClusterFeatureSpec_ (configv1alpha1.Spec clusterSummary)) with
  | Some p => configv1alpha1.PrometheusConfiguration.PolicyRefs p
  | None => []
  end.

(** The policy references of the Kyverno configuration, read the way
    [getCurrentReferences] reads them. *)
Definition kyvernoPolicyRefs (clusterSummary : configv1alpha1.ClusterSummary)
    : list corev1.ObjectReference :=
  match configv1alpha1.KyvernoConfiguration
          (configv1alpha1.ClusterFeatureSpec_ (configv1alpha1.Spec clusterSummary)) with
  | Some k => configv1alpha1.KyvernoConfiguration.PolicyRefs k
  | None => []
  end.

(** A scope that references roles and ConfigMaps of both kinds. *)
Definition mixedScope : scope.ClusterSummaryScope :=
  scope.mkScope (exampleSummary [] fullSpec).

(** ** The normal path and the entry point of the reconciler *)

(** [controllerutil.AddFinalizer]: appends the finalizer unless the object
    has it already. *)
Definition AddFinalizer (o : metav1.ObjectMeta) (finalizer : string) : metav1.ObjectMeta :=
  if controllerutil.ContainsFinalizer o finalizer then o
  else {| metav1.Name := metav1.Name o;
          metav1.Finalizers := metav1.Finalizers o ++ [finalizer] |}.

(** What [Reconcile] fetches: the object and its deletion timestamp, a nil
    timestamp being [None] and a set one the time elapsed since the zero
    time. *)
Record Fetched := mkFetched {
  object : configv1alpha1.ClusterSummary;
  DeletionTimestamp : option Z;
}.

(** [DeletionTimestamp.IsZero()] *)
Definition IsZero (t : option Z) : bool :=
  match t with
  | None => true
  | Some t => bool_decide (t = 0%Z)
  end.

(** The remaining collaborators of [Reconcile] and [reconcileNormal], all
    declared elsewhere in the repository or in libraries: the fetch of the
    ClusterSummary named by the request, the lookup of the owning
    ClusterFeature, the construction of the scope, its [PatchObject] and
    [Close], and [errors.Wrapf]. The scope keeps the pointer it is given;
    patching and closing write the object back and change no field of it read
    here. *)
Class ReconcileEnv (World : Type) := {
  Get_ClusterSummary : World → string → error + Fetched;
  getClusterFeatureOwner : World → configv1alpha1.ClusterSummary → option error;
  NewClusterSummaryScope : World → configv1alpha1.ClusterSummary → option error;
  PatchObject : configv1alpha1.ClusterSummary → World → option error * World;
  scope_Close : configv1alpha1.ClusterSummary → World → option error * World;
  Wrapf : error → string → error;
}.

(** The state of the controller between reconciliations, with the record of
    the calls of the last one. *)
Record Controller (World Rng : Type) := mkController {
  reconciler : ClusterSummaryReconciler;
  rng : Rng;
  pass : PassState World;
}.
Arguments mkController {World Rng}.
Arguments reconciler {World Rng}.
Arguments rng {World Rng}.
Arguments pass {World Rng}.

Definition withWorld {World} (st : PassState World) (w : World) : PassState World :=
  {| clusterSummary := clusterSummary st; world := w; calls := calls st |}.

Section NormalPath.
Context {World Rng : Type}.
Context `{!Collaborators World} `{!ReconcileEnv World}.
Context `{!EntryKeys} `{!RandomSource Rng}.

Definition patchObject : M World (option error) :=
  λ st, let '(err, w) := PatchObject (clusterSummary st) (world st) in
        (err, withWorld st w).

Definition addFinalizer : M World (option error) :=
  cs <~ getClusterSummary ;;
  (* If the object doesn't have our finalizer, add it. *)
  _ <~ putClusterSummary
         (withObjectMeta cs
            (AddFinalizer (configv1alpha1.ObjectMeta cs) ClusterSummaryFinalizer)) ;;
  (* Register the finalizer immediately *)
  err <~ patchObject ;;
  match err with
  | Some err =>
      ret (Some (Wrapf err ("Failed to add finalizer for " +:+
                             metav1.Name (configv1alpha1.ObjectMeta cs))))
  | None => ret None
  end.

Definition reconcileNormal (ctl : Controller World Rng)
    : (reconcile.Result * option error) * Controller World Rng :=
  let st := pass ctl in
  let '(err, st) :=
    if negb (controllerutil.ContainsFinalizer
               (configv1alpha1.ObjectMeta (clusterSummary st)) ClusterSummaryFinalizer)
    then addFinalizer st
    else (None, st) in
  match err with
  | Some err =>
      ((reconcile.zero, Some err),
       {| reconciler := reconciler ctl; rng := rng ctl; pass := st |})
  | None =>
      let '(cs, g) := generatePolicyNamePrefix (clusterSummary st) (rng ctl) in
      let st := {| clusterSummary := cs; world := world st; calls := calls st |} in
      let r := updatesMaps (reconciler ctl) (scope.mkScope cs) in
      let '(err, st) := deploy st in
      let ctl := {| reconciler := r; rng := g; pass := st |} in
      match err with
      | Some _ =>
          (({| reconcile.Requeue := true;
               reconcile.RequeueAfter := normalRequeueAfter |}, None), ctl)
      | None => ((reconcile.zero, None), ctl)
      end
  end.

(** [Reconcile] for the request [req], started with the collaborators in
    state [w]. The call record of the outcome starts empty. When no pass is
    run the outcome keeps the fetched object, or the object of [ctl] when
    the fetch itself failed. *)
Definition Reconcile (ctl : Controller World Rng) (req : string)
    : (reconcile.Result * option error) * Controller World Rng :=
  let w := world (pass ctl) in
  let idle (cs : configv1alpha1.ClusterSummary) :=
    {| reconciler := reconciler ctl; rng := rng ctl;
       pass := {| clusterSummary := cs; world := w; calls := [] |} |} in
  (* Fetch the clusterSummary instance *)
  match Get_ClusterSummary w req with
  | inl err =>
      if apierrors.IsNotFound err
      then ((reconcile.zero, None), idle (clusterSummary (pass ctl)))
      else ((reconcile.zero,
             Some (Wrapf err ("Failed to fetch clusterSummary " +:+ req))),
            idle (clusterSummary (pass ctl)))
  | inr fetched =>
      let cs := object fetched in
      (* Fetch the ClusterFeature. *)
      match getClusterFeatureOwner w cs with
      | Some err =>
          ((reconcile.zero,
            Some (Wrapf err ("Failed to get owner clusterFeature for " +:+ req))),
           idle cs)
      | None =>
          match NewClusterSummaryScope w cs with
          | Some err =>
              ((reconcile.zero,
                Some (Wrapf err ("unable to create clusterfeature scope for " +:+ req))),
               idle cs)
          | None =>
              let ctl := idle cs in
              let '((result, reterr), ctl) :=
                if negb (IsZero (DeletionTimestamp fetched))
                then (* Handle deleted clusterSummary *)
                  let '(res, st) := reconcileDelete (pass ctl) in
                  (res, {| reconciler := reconciler ctl; rng := rng ctl; pass := st |})
                else (* Handle non-deleted clusterSummary *)
                  reconcileNormal ctl in
              (* Always close the scope when exiting this function *)
              let '(closeErr, w) :=
                scope_Close (clusterSummary (pass ctl)) (world (pass ctl)) in
              let ctl := {| reconciler := reconciler ctl; rng := rng ctl;
                            pass := withWorld (pass ctl) w |} in
              match closeErr with
              | Some err => ((result, Some err), ctl)
              | None => ((result, reterr), ctl)
              end
          end
      end
  end.
End NormalPath.

(** Scripted collaborators for a whole reconciliation: the script of the
    pass, what the fetch of the ClusterSummary answers, and whether patching
    and closing fail. *)
Record ReconcileScript := mkReconcileScript {
  passScript : Script;
  fetchAnswer : error + Fetched;
  patchOutcome : option error;
  closeOutcome : option error;
}.

Definition scriptedPass : Collaborators ReconcileScript := {|
  Client w := @Client Script scripted (passScript w);
  deployFeatureImpl f cs w :=
    (deployOutcome (passScript w) (feature.id f), configv1alpha1.Status cs, w);
  undeployFeatureImpl f cs w :=
    (undeployOutcome (passScript w) (feature.id f), configv1alpha1.Status cs, w);
  ClusterSummaryFinalizer := @ClusterSummaryFinalizer Script scripted;
|}.

Definition scriptedEnv : ReconcileEnv ReconcileScript := {|
  Get_ClusterSummary w _ := fetchAnswer w;
  getClusterFeatureOwner _ _ := None;
  NewClusterSummaryScope _ _ := None;
  PatchObject _ w := (patchOutcome w, w);
  scope_Close _ w := (closeOutcome w, w);
  Wrapf err msg :=
    match err with
    | StatusNotFound m => StatusNotFound (msg +:+ ": " +:+ m)
    | OtherError m => OtherError (msg +:+ ": " +:+ m)
    end;
|}.

Definition exampleController (w : ReconcileScript) : Controller ReconcileScript nat :=
  {| reconciler := emptyReconciler;
     rng := 42;
     pass := {| clusterSummary := exampleSummary [] emptySpec; world := w; calls := [] |} |}.

(** ** Prometheus handlers *)

(** The installation modes the handlers compare against; any other value of
    the string type is [PrometheusInstallationModeOther]. *)
Inductive PrometheusInstallationMode :=
| PrometheusInstallationModeKubeStateMetrics
| PrometheusInstallationModeKubePrometheus
| PrometheusInstallationModeOther (mode : string).

#[global] Instance PrometheusInstallationMode_eq_dec : EqDecision PrometheusInstallationMode.
Proof. solve_decision. Defined.

(** The fields of the Prometheus configuration that the deploy handlers
    read; a nil pointer is [None], a quantity is its value. *)
Record PrometheusSettings := mkPrometheusSettings {
  InstallationMode : PrometheusInstallationMode;
  StorageClassName : option string;
  StorageQuantity : option Z;
}.

(** A ClusterSummary as the Prometheus deploy handlers see it: its
    Prometheus configuration, nil or not. *)
Record PrometheusSummary := mkPrometheusSummary {
  prometheusConfiguration : option PrometheusSettings;
}.

(** [shouldInstallPrometheusOperator]: unless kube-prometheus stack is
    deployed, prometheus operator needs to be installed. The argument is a
    pointer, nil being [None]. *)
Definition shouldInstallPrometheusOperator (clusterSummary : option PrometheusSummary) : bool :=
  match clusterSummary with
  | None => false
  | Some cs =>
      match prometheusConfiguration cs with
      | None => false
      | Some p =>
          negb (bool_decide (InstallationMode p = PrometheusInstallationModeKubePrometheus))
      end
  end.

Definition shouldInstallKubeStateMetrics (clusterSummary : option PrometheusSummary) : bool :=
  match clusterSummary with
  | None => false
  | Some cs =>
      match prometheusConfiguration cs with
      | None => false
      | Some p =>
          bool_decide (InstallationMode p = PrometheusInstallationModeKubeStateMetrics)
      end
  end.

Definition shouldInstallKubePrometheusStack (clusterSummary : option PrometheusSummary) : bool :=
  match clusterSummary with
  | None => false
  | Some cs =>
      match prometheusConfiguration cs with
      | None => false
      | Some p =>
          bool_decide (InstallationMode p = PrometheusInstallationModeKubePrometheus)
      end
  end.

(** The manifests, namespaces and deployments the handlers name; their
    contents are constants of the internal packages. *)
Inductive Document :=
| PrometheusClusterRole
| PrometheusClusterRoleBinding
| KubePrometheus_Prometheus
| KSMServiceMonitor
| PrometheusYAML
| KubeStateMetricsYAML
| KubePrometheusYAML.

#[global] Instance Document_eq_dec : EqDecision Document.
Proof. solve_decision. Defined.

Inductive TargetNamespace := prometheus_Namespace | kubestatemetrics_Namespace.

Inductive Workload := prometheus_Deployment | kubestatemetrics_Deployment.

(** The storage of a Prometheus instance: the storage class and the
    storage request of its volume claim template. *)
Record StorageSpec := mkStorageSpec {
  VolumeStorageClassName : option string;
  StorageRequest : option Z;
}.

Record PrometheusInstance := mkPrometheusInstance {
  Storage : option StorageSpec;
}.

(** The target cluster behind the remote client, with the helpers
    [isDeploymentReady], [deployDoc] and [createNamespace] of the package,
    declared elsewhere; [isDeploymentReady] answers (present, ready, err). *)
Class RemoteCluster (Remote : Type) := {
  isDeploymentReady : TargetNamespace → Workload → Remote → bool * bool * option error;
  deployDoc : Document → Remote → option error * Remote;
  createNamespace : TargetNamespace → Remote → option error * Remote;
  Get_PrometheusInstance : Remote → error + PrometheusInstance;
  Update_PrometheusInstance : PrometheusInstance → Remote → option error * Remote;
}.

(** A write attempted on the target cluster. *)
Inductive RemoteAction :=
| ActCreateNamespace (ns : TargetNamespace)
| ActDeployDoc (doc : Document)
| ActUpdate (instance : PrometheusInstance).

(** The target cluster and the record of the writes attempted on it. *)
Record RemoteState (Remote : Type) := mkRemoteState {
  remote : Remote;
  applied : list RemoteAction;
}.
Arguments mkRemoteState {Remote}.
Arguments remote {Remote}.
Arguments applied {Remote}.

(** A step on the target cluster: it may fail, and it may write. *)
Definition Step (Remote : Type) : Type :=
  RemoteState Remote → option error * RemoteState Remote.

(** [return nil] and [return err]. *)
Definition succeed {Remote} : Step Remote := λ s, (None, s).
Definition failWith {Remote} (err : error) : Step Remote := λ s, (Some err, s).

(** [if err := f(); err != nil { return err }], then [g]. *)
Definition orReturn {Remote} (f g : Step Remote) : Step Remote :=
  λ s, let '(err, s) := f s in
       match err with
       | Some err => (Some err, s)
       | None => g s
       end.

(** [if err := f(); err != nil { return nil }], then [g]. *)
Definition orSucceed {Remote} (f g : Step Remote) : Step Remote :=
  λ s, let '(err, s) := f s in
       match err with
       | Some _ => (None, s)
       | None => g s
       end.

(** [if b { err = f(); if err != nil { return err } }] is
    [orReturn (when b f)]. *)
Definition when {Remote} (b : bool) (f : Step Remote) : Step Remote :=
  if b then f else succeed.

Infix ">>>" := orReturn (at level 60, right associativity).

Section PrometheusHandlers.
Context {Remote : Type} `{!RemoteCluster Remote}.

Definition deployDocStep (doc : Document) : Step Remote :=
  λ s, let '(err, c) := deployDoc doc (remote s) in
       (err, {| remote := c; applied := applied s ++ [ActDeployDoc doc] |}).

Definition createNamespaceStep (ns : TargetNamespace) : Step Remote :=
  λ s, let '(err, c) := createNamespace ns (remote s) in
       (err, {| remote := c; applied := applied s ++ [ActCreateNamespace ns] |}).

Definition updateStep (instance : PrometheusInstance) : Step Remote :=
  λ s, let '(err, c) := Update_PrometheusInstance instance (remote s) in
       (err, {| remote := c; applied := applied s ++ [ActUpdate instance] |}).

(** [isPrometheusOperatorReady] checks whether prometheus operator
    deployment is present and ready. *)
Definition isPrometheusOperatorReady (s : RemoteState Remote) : bool * bool * option error :=
  isDeploymentReady prometheus_Namespace prometheus_Deployment (remote s).

(** [isKubeStateMetricsReady] checks whether KubeStateMetrics deployment is
    present and ready. *)
Definition isKubeStateMetricsReady (s : RemoteState Remote) : bool * bool * option error :=
  isDeploymentReady kubestatemetrics_Namespace kubestatemetrics_Deployment (remote s).

Definition deployPrometheusOperatorInWorklaodCluster : Step Remote :=
  createNamespaceStep prometheus_Namespace >>> deployDocStep PrometheusYAML.

Definition deployKubeStateMetricsInWorklaodCluster : Step Remote :=
  createNamespaceStep kubestatemetrics_Namespace >>> deployDocStep KubeStateMetricsYAML.

Definition deployKubePrometheusInWorklaodCluster : Step Remote :=
  createNamespaceStep prometheus_Namespace >>> deployDocStep KubePrometheusYAML.

(** The body shared by the three installers: check the deployment, install
    when it is not present, and report an error while the check did not
    find it ready. *)
Definition installWhenAbsent
    (check : RemoteState Remote → bool * bool * option error)
    (install : Step Remote) : Step Remote :=
  λ s, let '(present, ready, err) := check s in
       match err with
       | Some err => (Some err, s)
       | None =>
           (when (negb present) install >>>
            if negb ready
            then failWith (OtherError "prometheus operator deployment is not ready yet")
            else succeed) s
       end.

Definition deployPrometheusOperator : Step Remote :=
  (* First verify if prometheus operator is installed, if not install it *)
  installWhenAbsent isPrometheusOperatorReady deployPrometheusOperatorInWorklaodCluster.

Definition deployPrometheusClusterRole : Step Remote :=
  deployDocStep PrometheusClusterRole >>>
  deployDocStep PrometheusClusterRoleBinding >>>
  succeed.

Definition deployKubeStateMetrics : Step Remote :=
  (* Deploy ClusterRole and ClusterRoleBinding for prometheus *)
  orSucceed deployPrometheusClusterRole
    (* Deploy Prometheus instance *)
    (orSucceed (deployDocStep KubePrometheus_Prometheus)
       (* Deploy ServiceMonitor to scrape KubeStateMetrics *)
       (orSucceed (deployDocStep KSMServiceMonitor)
          (* First verify if KubeStateMetrics is installed, if not install it *)
          (installWhenAbsent isKubeStateMetricsReady
             deployKubeStateMetricsInWorklaodCluster))).

Definition deployKubePrometheusStack : Step Remote :=
  (* First verify if prometheus operator is installed, if not install it *)
  installWhenAbsent isPrometheusOperatorReady deployKubePrometheusInWorklaodCluster.

Definition getPrometheusInstance (s : RemoteState Remote) : error + PrometheusInstance :=
  Get_PrometheusInstance (remote s).

(** [addStorageConfig] adds storage configuration if requested by user. *)
Definition addStorageConfig (clusterSummary : PrometheusSummary) : Step Remote :=
  λ s,
  match prometheusConfiguration clusterSummary with
  | None => (None, s)
  | Some p =>
      match StorageClassName p with
      | None => (None, s)
      | Some storageClassName =>
          if decide (storageClassName = "") then (None, s)
          else
            match getPrometheusInstance s with
            | inl err => (Some err, s)
            | inr prometheusInstance =>
                let prometheusInstance :=
                  match Storage prometheusInstance with
                  | None =>
                      let req := 40000000%Z in
                      let quantity :=
                        match StorageQuantity p with
                        | Some q => q
                        | None => req
                        end in
                      {| Storage :=
                           Some {| VolumeStorageClassName := Some storageClassName;
                                   StorageRequest := Some quantity |} |}
                  | Some _ => prometheusInstance
                  end in
                updateStep prometheusInstance s
            end
      end
  end.

(** The deploy handler of the Prometheus feature. [fetched] is what
    [getClusterSummaryAndCAPIClusterClient] answers: an error, or the
    ClusterSummary, the remote client being the one of the cluster the step
    runs on. *)
Definition deployPrometheus_handler (fetched : error + PrometheusSummary) : Step Remote :=
  match fetched with
  | inl err => failWith err
  | inr clusterSummary =>
      when (shouldInstallPrometheusOperator (Some clusterSummary))
        deployPrometheusOperator >>>
      when (shouldInstallKubeStateMetrics (Some clusterSummary))
        deployKubeStateMetrics >>>
      when (shouldInstallKubePrometheusStack (Some clusterSummary))
        deployKubePrometheusStack >>>
      addStorageConfig clusterSummary >>>
      succeed
  end.

(** [unDeployPrometheus]: nothing specific to do. *)
Definition unDeployPrometheus_handler : Step Remote := succeed.
End PrometheusHandlers.

(** A scripted target cluster to run the handlers on examples: what the
    readiness check answers for each deployment, which writes fail, and the
    Prometheus instance it holds. *)
Record RemoteScript := mkRemoteScript {
  readiness : Workload → bool * bool * option error;
  failingDoc : option Document;
  instance : error + PrometheusInstance;
}.

Definition scriptedRemote : RemoteCluster RemoteScript := {|
  isDeploymentReady _ wl c := readiness c wl;
  deployDoc doc c :=
    (if decide (failingDoc c = Some doc) then Some (OtherError "apply failed") else None, c);
  createNamespace _ c := (None, c);
  Get_PrometheusInstance c := instance c;
  Update_PrometheusInstance inst c :=
    (None, {| readiness := readiness c; failingDoc := failingDoc c;
              instance := inr inst |});
|}.

(** The entry the mutators and their readers consider for a feature: the
    first one with its identifier. *)
Definition summaryFor (featureID : configv1alpha1.FeatureID)
    (l : list configv1alpha1.FeatureSummary) : option configv1alpha1.FeatureSummary :=
  find (λ fs, bool_decide (configv1alpha1.FeatureID_ fs = featureID)) l.

(** The entries of the other features. *)
Definition otherSummaries (featureID : configv1alpha1.FeatureID)
    (l : list configv1alpha1.FeatureSummary) : list configv1alpha1.FeatureSummary :=
  filter (λ fs, configv1alpha1.FeatureID_ fs ≠ featureID) l.

(* ===================================================================== *)
(** * Part II. Properties *)
(* ===================================================================== *)

(** ** Reference index *)

Section ReferenceIndex.
Implicit Types (r : ClusterSummaryReconciler) (c e name : string).
Implicit Types (cur s : gset string) (l : list string).

(** The consumers of an entry, a missing entry having none. *)
Local Abbreviation consumersOf r e := (default (∅ : gset string) (ReferenceMap r !! e)).

Lemma referencedBy_default r e c : referencedBy r e c ↔ c ∈ consumersOf r e.
Proof.
  unfold referencedBy. destruct (ReferenceMap r !! e) as [s|]; simpl.
  - split; [intros (s' & [= <-] & ?); done | eauto].
  - split; [intros (s' & [=] & _) | set_solver].
Qed.

Lemma consumes_default r c e :
  consumes r c e ↔ e ∈ default (∅ : gset string) (ClusterSummaryMap r !! c).
Proof.
  unfold consumes. destruct (ClusterSummaryMap r !! c) as [s|]; simpl.
  - split; [intros (s' & [= <-] & ?); done | eauto].
  - split; [intros (s' & [=] & _) | set_solver].
Qed.

Lemma elem_of_Set_difference s cur e :
  e ∈ Set_difference s cur ↔ e ∈ s ∧ e ∉ cur.
Proof.
  unfold Set_difference, Set_items, Set_has.
  rewrite list_elem_of_filter, elem_of_elements, bool_decide_eq_false. tauto.
Qed.

Lemma insertConsumer_lookup name r e e' :
  ReferenceMap (insertConsumer name r e) !! e' =
    if decide (e = e') then Some ({[name]} ∪ consumersOf r e)
    else ReferenceMap r !! e'.
Proof.
  unfold insertConsumer, getReferenceMapForEntry, Set_insert.
  destruct (ReferenceMap r !! e) as [s|] eqn:Hs; simpl;
    rewrite lookup_insert; case_decide; try done.
  by rewrite lookup_insert_ne.
Qed.

Lemma eraseConsumer_lookup name r e e' :
  ReferenceMap (eraseConsumer name r e) !! e' =
    if decide (e = e') then Some (consumersOf r e ∖ {[name]})
    else ReferenceMap r !! e'.
Proof.
  unfold eraseConsumer, getReferenceMapForEntry, Set_erase.
  destruct (ReferenceMap r !! e) as [s|] eqn:Hs; simpl;
    rewrite lookup_insert; case_decide; try done.
  by rewrite lookup_insert_ne.
Qed.

Lemma insertConsumer_ClusterSummaryMap name r e :
  ClusterSummaryMap (insertConsumer name r e) = ClusterSummaryMap r.
Proof.
  unfold insertConsumer, getReferenceMapForEntry.
  by destruct (ReferenceMap r !! e).
Qed.

Lemma eraseConsumer_ClusterSummaryMap name r e :
  ClusterSummaryMap (eraseConsumer name r e) = ClusterSummaryMap r.
Proof.
  unfold eraseConsumer, getReferenceMapForEntry.
  by destruct (ReferenceMap r !! e).
Qed.

(** The insertion loop, whatever the order in which the entries come. *)
Lemma foldl_insertConsumer_lookup name l r e :
  ReferenceMap (foldl (insertConsumer name) r l) !! e =
    if decide (e ∈ l) then Some ({[name]} ∪ consumersOf r e)
    else ReferenceMap r !! e.
Proof.
  revert r. induction l as [|x l IH]; intros r; cbn [foldl].
  - rewrite decide_False by set_solver. done.
  - rewrite IH, insertConsumer_lookup.
    destruct (decide (x = e)) as [->|Hne]; simpl; index_cases.
Qed.

(** The erasure loop. *)
Lemma foldl_eraseConsumer_lookup name l r e :
  ReferenceMap (foldl (eraseConsumer name) r l) !! e =
    if decide (e ∈ l) then Some (consumersOf r e ∖ {[name]})
    else ReferenceMap r !! e.
Proof.
  revert r. induction l as [|x l IH]; intros r; cbn [foldl].
  - rewrite decide_False by set_solver. done.
  - rewrite IH, eraseConsumer_lookup.
    destruct (decide (x = e)) as [->|Hne]; simpl; index_cases.
Qed.

Lemma foldl_insertConsumer_ClusterSummaryMap name l r :
  ClusterSummaryMap (foldl (insertConsumer name) r l) = ClusterSummaryMap r.
Proof.
  revert r. induction l as [|x l IH]; intros r; simpl; [done|].
  by rewrite IH, insertConsumer_ClusterSummaryMap.
Qed.

Lemma foldl_eraseConsumer_ClusterSummaryMap name l r :
  ClusterSummaryMap (foldl (eraseConsumer name) r l) = ClusterSummaryMap r.
Proof.
  revert r. induction l as [|x l IH]; intros r; simpl; [done|].
  by rewrite IH, eraseConsumer_ClusterSummaryMap.
Qed.

Lemma reconciler_eq r r' :
  ReferenceMap r = ReferenceMap r' →
  ClusterSummaryMap r = ClusterSummaryMap r' → r = r'.
Proof. destruct r, r'; simpl; congruence. Qed.

(** Go ranges over a map in no fixed order: the loops give the same maps for
    every order, and every repetition, of the same entries. *)
Lemma foldl_insertConsumer_order name l l' r :
  (∀ e, e ∈ l ↔ e ∈ l') →
  foldl (insertConsumer name) r l = foldl (insertConsumer name) r l'.
Proof.
  intros Hsame. apply reconciler_eq.
  - apply map_eq; intros e. rewrite !foldl_insertConsumer_lookup.
    specialize (Hsame e). repeat case_decide; tauto.
  - by rewrite !foldl_insertConsumer_ClusterSummaryMap.
Qed.

Lemma foldl_eraseConsumer_order name l l' r :
  (∀ e, e ∈ l ↔ e ∈ l') →
  foldl (eraseConsumer name) r l = foldl (eraseConsumer name) r l'.
Proof.
  intros Hsame. apply reconciler_eq.
  - apply map_eq; intros e. rewrite !foldl_eraseConsumer_lookup.
    specialize (Hsame e). repeat case_decide; tauto.
  - by rewrite !foldl_eraseConsumer_ClusterSummaryMap.
Qed.

Lemma updateReferences_ClusterSummaryMap r name cur :
  ClusterSummaryMap (updateReferences r name cur) =
    <[name := cur]> (ClusterSummaryMap r).
Proof.
  unfold updateReferences; simpl.
  by rewrite foldl_eraseConsumer_ClusterSummaryMap,
             foldl_insertConsumer_ClusterSummaryMap.
Qed.

(** What one index update leaves in [ReferenceMap] for each entry. *)
Lemma updateReferences_lookup r name cur e :
  ReferenceMap (updateReferences r name cur) !! e =
    if decide (e ∈ cur) then Some ({[name]} ∪ consumersOf r e)
    else if decide (e ∈ default (∅ : gset string) (ClusterSummaryMap r !! name))
    then Some (consumersOf r e ∖ {[name]})
    else ReferenceMap r !! e.
Proof.
  unfold updateReferences; simpl.
  rewrite foldl_eraseConsumer_lookup, !foldl_insertConsumer_lookup.
  unfold Set_items.
  destruct (ClusterSummaryMap r !! name) as [old|] eqn:Hold; simpl;
    repeat case_decide;
    repeat match goal with
           | H : context [_ ∈ Set_difference _ _] |- _ =>
               rewrite elem_of_Set_difference in H
           | H : context [_ ∈ elements _] |- _ => rewrite elem_of_elements in H
           end;
    try done; tauto.
Qed.

Lemma updateReferences_bidirectional r name cur :
  bidirectional r → bidirectional (updateReferences r name cur).
Proof.
  intros Hinv c e.
  rewrite consumes_default, referencedBy_default.
  rewrite updateReferences_ClusterSummaryMap, updateReferences_lookup.
  specialize (Hinv c e). rewrite consumes_default, referencedBy_default in Hinv.
  destruct (decide (name = c)) as [->|Hne].
  - rewrite lookup_insert_eq; simpl.
    destruct (decide (e ∈ cur)); simpl; [set_solver|].
    case_decide; simpl; [set_solver|]. tauto.
  - rewrite lookup_insert_ne by done.
    destruct (decide (e ∈ cur)); simpl; [set_solver|].
    case_decide; simpl; [set_solver|]. tauto.
Qed.

Lemma emptyReconciler_bidirectional : bidirectional emptyReconciler.
Proof.
  intros c e. rewrite consumes_default, referencedBy_default. simpl.
  rewrite !lookup_empty. simpl. set_solver.
Qed.

Lemma updateReferences_idempotent r name cur :
  updateReferences (updateReferences r name cur) name cur =
    updateReferences r name cur.
Proof.
  set (r1 := updateReferences r name cur).
  assert (HR : ReferenceMap (updateReferences r1 name cur) = ReferenceMap r1).
  { apply map_eq; intros e. rewrite updateReferences_lookup.
    subst r1. rewrite updateReferences_ClusterSummaryMap, lookup_insert_eq.
    rewrite updateReferences_lookup.
    destruct (decide (e ∈ cur)) as [Hc|Hc]; cbn [default from_option];
      [f_equal; set_solver|].
    by rewrite decide_False. }
  assert (HC : ClusterSummaryMap (updateReferences r1 name cur) = ClusterSummaryMap r1).
  { subst r1. rewrite !updateReferences_ClusterSummaryMap. apply insert_insert_eq. }
  destruct (updateReferences r1 name cur), r1; simpl in *; congruence.
Qed.
End ReferenceIndex.

(** ** The index claims *)

Example getCurrentReferences_roles :
  @getCurrentReferences dashEntryKeys (exampleScope "c" ["A"; "B"])
  = {[ "WorkloadRole-A"; "WorkloadRole-B" ]}.
Proof. vm_compute. reflexivity. Qed.

Lemma updatesMaps_step_bidirectional `{EntryKeys} r s :
  bidirectional r → bidirectional (updatesMaps r s).
Proof. apply updateReferences_bidirectional. Qed.

(** C1. For every sequence of [updatesMaps] calls, started in a state of the
    two maps in which the bidirectional invariant holds (such as the empty
    maps the reconciler starts with), the invariant holds after every call:
    an entry [e] is in [ClusterSummaryMap[c]] if and only if [c] is in
    [ReferenceMap[e]]. *)
Theorem updatesMaps_bidirectional `{EntryKeys}
    (r : ClusterSummaryReconciler) (calls : list scope.ClusterSummaryScope) :
  bidirectional r → Forall bidirectional (updatesMaps_trace r calls).
Proof.
  revert r. induction calls as [|s calls IH]; intros r Hr; simpl.
  - constructor.
  - constructor.
    + by apply updatesMaps_step_bidirectional.
    + by apply IH, updatesMaps_step_bidirectional.
Qed.

Lemma updatesMaps_bidirectional_witness :
  bidirectional emptyReconciler ∧
  Forall bidirectional
    (@updatesMaps_trace dashEntryKeys emptyReconciler
       [exampleScope "c" ["A"; "B"]; exampleScope "d" ["B"]; exampleScope "c" ["B"]]).
Proof.
  split.
  - apply emptyReconciler_bidirectional.
  - apply (@updatesMaps_bidirectional dashEntryKeys), emptyReconciler_bidirectional.
Defined.

(** C4. If consumer [c] is recorded with the reference set {A,B} and its spec
    now yields {B}, then after one [updatesMaps] call the reference set
    stored for [c] is {B}, [ReferenceMap[A]] does not contain [c], and the
    entry A is still a key of [ReferenceMap]: its set is the former one
    without [c], hence the empty set when [c] was its only consumer. *)
Theorem updatesMaps_drops_stale_reference `{EntryKeys}
    (r : ClusterSummaryReconciler) (s : scope.ClusterSummaryScope) (A B : string) :
  A ≠ B →
  ClusterSummaryMap r !! scope.Name s = Some {[A; B]} →
  getCurrentReferences s = {[B]} →
  let r' := updatesMaps r s in
  ClusterSummaryMap r' !! scope.Name s = Some {[B]}
  ∧ ¬ referencedBy r' A (scope.Name s)
  ∧ ReferenceMap r' !! A
      = Some (default ∅ (ReferenceMap r !! A) ∖ {[scope.Name s]})
  ∧ (ReferenceMap r !! A = Some {[scope.Name s]} → ReferenceMap r' !! A = Some ∅).
Proof.
  intros HAB Hold Hcur r'. subst r'. unfold updatesMaps. rewrite Hcur.
  assert (HA : ReferenceMap (updateReferences r (scope.Name s) {[B]}) !! A
               = Some (default ∅ (ReferenceMap r !! A) ∖ {[scope.Name s]})).
  { rewrite updateReferences_lookup, Hold. cbn [default from_option].
    rewrite decide_False by set_solver. by rewrite decide_True by set_solver. }
  split; [|split; [|split]].
  - by rewrite updateReferences_ClusterSummaryMap, lookup_insert_eq.
  - rewrite referencedBy_default, HA. cbn [default from_option]. set_solver.
  - exact HA.
  - intros Honly. rewrite HA, Honly. cbn [default from_option]. f_equal. set_solver.
Qed.

Lemma updatesMaps_drops_stale_reference_witness :
  let r := @updatesMaps dashEntryKeys emptyReconciler (exampleScope "c" ["A"; "B"]) in
  let s := exampleScope "c" ["B"] in
  let r' := @updatesMaps dashEntryKeys r s in
  ClusterSummaryMap r' !! "c" = Some {[ "WorkloadRole-B" ]}
  ∧ ¬ referencedBy r' "WorkloadRole-A" "c"
  ∧ ReferenceMap r' !! "WorkloadRole-A"
      = Some (default ∅ (ReferenceMap r !! "WorkloadRole-A") ∖ {[ "c" ]})
  ∧ (ReferenceMap r !! "WorkloadRole-A" = Some {[ "c" ]} →
     ReferenceMap r' !! "WorkloadRole-A" = Some ∅).
Proof.
  intros r s.
  apply (@updatesMaps_drops_stale_reference dashEntryKeys r s
           "WorkloadRole-A" "WorkloadRole-B").
  - discriminate.
  - vm_compute. reflexivity.
  - vm_compute. reflexivity.
Defined.

(** The scenario end to end: after reconciling with {A,B} and then with {B},
    the entry A is kept in [ReferenceMap] with the empty set. *)
Example updatesMaps_keeps_empty_entry :
  let r := @updatesMaps dashEntryKeys emptyReconciler (exampleScope "c" ["A"; "B"]) in
  let r' := @updatesMaps dashEntryKeys r (exampleScope "c" ["B"]) in
  ReferenceMap r !! "WorkloadRole-A" = Some {[ "c" ]}
  ∧ ReferenceMap r' !! "WorkloadRole-A" = Some ∅
  ∧ ReferenceMap r' !! "WorkloadRole-B" = Some {[ "c" ]}
  ∧ ClusterSummaryMap r' !! "c" = Some {[ "WorkloadRole-B" ]}.
Proof. vm_compute. repeat split; reflexivity. Qed.

(** C10. [updatesMaps] is idempotent: a second call with the same scope, so
    with the same computed reference set, leaves [ReferenceMap] and
    [ClusterSummaryMap] exactly as the first call left them. *)
Theorem updatesMaps_idempotent `{EntryKeys}
    (r : ClusterSummaryReconciler) (s : scope.ClusterSummaryScope) :
  updatesMaps (updatesMaps r s) s = updatesMaps r s.
Proof. apply updateReferences_idempotent. Qed.

(** ** Feature orchestration *)

Section OrchestratorFacts.
Context {World : Type} `{!Collaborators World}.
Implicit Types (st : PassState World) (f : feature.t).

Lemma deployFeature_calls f st :
  calls (deployFeature f st).2 = calls st ++ [CallDeployFeature f].
Proof.
  unfold deployFeature.
  by destruct (deployFeatureImpl f (clusterSummary st) (world st)) as [[??]?].
Qed.

Lemma deployFeature_spec f st :
  featureSpec (deployFeature f st).2 = featureSpec st.
Proof.
  unfold deployFeature.
  by destruct (deployFeatureImpl f (clusterSummary st) (world st)) as [[??]?].
Qed.

Lemma undeployFeature_calls f st :
  calls (undeployFeature f st).2 = calls st ++ [CallUndeployFeature f].
Proof.
  unfold undeployFeature.
  by destruct (undeployFeatureImpl f (clusterSummary st) (world st)) as [[??]?].
Qed.

Lemma undeployFeature_meta f st :
  configv1alpha1.ObjectMeta (clusterSummary (undeployFeature f st).2)
  = configv1alpha1.ObjectMeta (clusterSummary st).
Proof.
  unfold undeployFeature.
  by destruct (undeployFeatureImpl f (clusterSummary st) (world st)) as [[??]?].
Qed.

Lemma deployKyverno_spec st : featureSpec (deployKyverno st).2 = featureSpec st.
Proof.
  unfold deployKyverno, bind, getClusterSummary, ret.
  destruct (configv1alpha1.KyvernoConfiguration _); [apply deployFeature_spec | done].
Qed.

Lemma firstError_is_Some (e1 e2 e3 : option error) :
  is_Some (firstError e1 e2 e3) ↔ is_Some e1 ∨ is_Some e2 ∨ is_Some e3.
Proof.
  destruct e1, e2, e3; simpl; rewrite ?is_Some_alt; simpl; tauto.
Qed.

(** [deploy] is the three steps in sequence, each started in the state the
    previous one left, whatever the previous one returned. *)
Lemma deploy_unfold st :
  deploy st =
    (firstError (deployRoles st).1
       (deployKyverno (deployRoles st).2).1
       (deployPrometheus (deployKyverno (deployRoles st).2).2).1,
     (deployPrometheus (deployKyverno (deployRoles st).2).2).2).
Proof.
  unfold deploy, bind, ret.
  destruct (deployRoles st) as [e1 st1]; simpl.
  destruct (deployKyverno st1) as [e2 st2]; simpl.
  by destruct (deployPrometheus st2) as [e3 st3].
Qed.

Lemma undeploy_meta st :
  configv1alpha1.ObjectMeta (clusterSummary (undeploy st).2)
  = configv1alpha1.ObjectMeta (clusterSummary st).
Proof.
  unfold undeploy, bind, ret, getClusterSummary, getWorld.
  destruct (client.Get_Cluster _ _ _) as [e|].
  - by destruct (apierrors.IsNotFound e).
  - unfold undeployRoles, undeployKyverno, undeployPrometheus.
    repeat match goal with
           | |- context [undeployFeature ?f ?s] =>
               let H := fresh "H" in
               let e := fresh "e" in
               let s' := fresh "st" in
               pose proof (undeployFeature_meta f s) as H;
               destruct (undeployFeature f s) as [e s']; simpl in H |- *
           end.
    congruence.
Qed.
End OrchestratorFacts.

Section Finalizers.
Implicit Types (f : list string) (finalizer : string).


Lemma remove_spec f finalizer :
  controllerutil.remove f finalizer
  = (filter (λ e, e ≠ finalizer) f, bool_decide (finalizer ∈ f)).
Proof.
  induction f as [|e f IH].
  - reflexivity.
  - cbn [controllerutil.remove]. rewrite IH. destruct (decide (e = finalizer)) as [->|Hne].
    + rewrite filter_cons_False by naive_solver.
      by rewrite bool_decide_eq_true_2 by set_solver.
    + rewrite filter_cons_True by done. f_equal.
      apply bool_decide_ext. set_solver.
Qed.

Lemma ContainsFinalizer_spec (o : metav1.ObjectMeta) finalizer :
  controllerutil.ContainsFinalizer o finalizer
  = bool_decide (finalizer ∈ metav1.Finalizers o).
Proof.
  unfold controllerutil.ContainsFinalizer.
  induction (metav1.Finalizers o) as [|e f IH].
  - reflexivity.
  - cbn [existsb]. rewrite IH. destruct (decide (e = finalizer)) as [->|Hne].
    + rewrite (bool_decide_eq_true_2 (finalizer = finalizer)) by done.
      symmetry. apply bool_decide_eq_true_2. set_solver.
    + rewrite (bool_decide_eq_false_2 (e = finalizer)) by done. simpl.
      apply bool_decide_ext. set_solver.
Qed.

(** Removing a finalizer leaves an object that does not contain it, and
    reports an update exactly when the object contained it. *)
Lemma RemoveFinalizer_spec (o : metav1.ObjectMeta) finalizer :
  controllerutil.ContainsFinalizer
    (controllerutil.RemoveFinalizer o finalizer).1 finalizer = false
  ∧ (controllerutil.RemoveFinalizer o finalizer).2
    = controllerutil.ContainsFinalizer o finalizer.
Proof.
  unfold controllerutil.RemoveFinalizer.
  rewrite remove_spec, !ContainsFinalizer_spec. simpl. split; [|done].
  apply bool_decide_eq_false_2. rewrite list_elem_of_filter. naive_solver.
Qed.
End Finalizers.

Section OrchestratorClaims.
Context {World : Type} `{!Collaborators World}.
Implicit Types (st : PassState World).

(** C2. In one pass the three deploy steps all run, each in the state the
    previous one left and whatever the previous one returned: [deploy] ends
    in the state reached after the Prometheus step, and when Kyverno and
    Prometheus are declared the three features are handed to
    [deployFeature] in the order roles, kyverno, prometheus. [deploy]
    returns a non-nil error if and only if at least one of the three steps
    returned one. *)
Theorem deploy_attempts_all_features st :
  let roles := deployRoles st in
  let kyverno := deployKyverno roles.2 in
  let prometheus := deployPrometheus kyverno.2 in
  (deploy st).2 = prometheus.2
  ∧ (is_Some (deploy st).1
     ↔ is_Some roles.1 ∨ is_Some kyverno.1 ∨ is_Some prometheus.1)
  ∧ (¬ notConfigured (featureSpec st) configv1alpha1.FeatureKyverno →
     ¬ notConfigured (featureSpec st) configv1alpha1.FeaturePrometheus →
     deployedFeatures (calls (deploy st).2)
     = deployedFeatures (calls st)
       ++ [configv1alpha1.FeatureRole; configv1alpha1.FeatureKyverno;
           configv1alpha1.FeaturePrometheus]).
Proof.
  intros roles kyverno prometheus. rewrite deploy_unfold. cbn [fst snd].
  split; [done|]. split; [apply firstError_is_Some|].
  intros Hk Hp. subst prometheus kyverno roles.
  pose proof (deployFeature_spec
    {| feature.id := configv1alpha1.FeatureRole;
       feature.currentHash := handlers.workloadRoleHash;
       feature.deploy := handlers.deployWorkloadRoles;
       feature.getRefs := Some handlers.getWorkloadRoleRefs |} st) as Hs1.
  pose proof (deployFeature_calls
    {| feature.id := configv1alpha1.FeatureRole;
       feature.currentHash := handlers.workloadRoleHash;
       feature.deploy := handlers.deployWorkloadRoles;
       feature.getRefs := Some handlers.getWorkloadRoleRefs |} st) as Hc1.
  fold deployRoles in Hs1, Hc1.
  destruct (deployRoles st) as [e1 st1]. cbn [fst snd] in *.
  pose proof (deployKyverno_spec st1) as Hs2.
  assert (Hc2 : calls (deployKyverno st1).2
                = calls st1 ++ [CallDeployFeature
                    {| feature.id := configv1alpha1.FeatureKyverno;
                       feature.currentHash := handlers.kyvernoHash;
                       feature.deploy := handlers.deployKyverno;
                       feature.getRefs := Some handlers.getKyvernoRefs |}]).
  { unfold deployKyverno, bind, getClusterSummary.
    unfold notConfigured in Hk. rewrite <- Hs1 in Hk. unfold featureSpec in Hk.
    destruct (configv1alpha1.KyvernoConfiguration _); [|done].
    apply deployFeature_calls. }
  destruct (deployKyverno st1) as [e2 st2]. cbn [fst snd] in *.
  assert (Hc3 : calls (deployPrometheus st2).2
                = calls st2 ++ [CallDeployFeature
                    {| feature.id := configv1alpha1.FeaturePrometheus;
                       feature.currentHash := handlers.prometheusHash;
                       feature.deploy := handlers.deployPrometheus;
                       feature.getRefs := Some handlers.getPrometheusRefs |}]).
  { unfold deployPrometheus, bind, getClusterSummary.
    unfold notConfigured in Hp. rewrite <- Hs1, <- Hs2 in Hp. unfold featureSpec in Hp.
    destruct (configv1alpha1.PrometheusConfiguration _); [|done].
    apply deployFeature_calls. }
  rewrite Hc3, Hc2, Hc1. unfold deployedFeatures.
  rewrite !omap_app. simpl. by rewrite <- !app_assoc.
Qed.

(** C3. When deletion is requested and [undeploy] returns an error,
    [reconcileDelete] returns a nil error with a requeue after 20 seconds
    and leaves the object metadata, finalizers included, as it was. When
    [undeploy] succeeds, [reconcileDelete] returns success with no requeue
    and the control resource no longer carries the finalizer. *)
Theorem reconcileDelete_outcome st :
  (∀ e, (undeploy st).1 = Some e →
     (reconcileDelete st).1
     = ({| reconcile.Requeue := true;
           reconcile.RequeueAfter := 20000000000%Z |}, None)
     ∧ configv1alpha1.ObjectMeta (clusterSummary (reconcileDelete st).2)
       = configv1alpha1.ObjectMeta (clusterSummary st))
  ∧ ((undeploy st).1 = None →
     (reconcileDelete st).1 = (reconcile.zero, None)
     ∧ controllerutil.ContainsFinalizer
         (configv1alpha1.ObjectMeta (clusterSummary (reconcileDelete st).2))
         ClusterSummaryFinalizer = false).
Proof.
  pose proof (undeploy_meta st) as Hmeta.
  unfold reconcileDelete, bind.
  destruct (undeploy st) as [err st1]; cbn [fst snd] in *.
  split.
  - intros e ->. unfold ret. cbn [fst snd]. done.
  - intros ->. unfold getClusterSummary, putClusterSummary, ret.
    destruct (controllerutil.ContainsFinalizer _ _) eqn:Hc; [|done].
    pose proof (RemoveFinalizer_spec
      (configv1alpha1.ObjectMeta (clusterSummary st1)) ClusterSummaryFinalizer)
      as [Hgone Hupd].
    destruct (controllerutil.RemoveFinalizer _ _) as [meta upd].
    cbn [fst snd] in *. rewrite Hupd, Hc. simpl. done.
Qed.

(** C5, as the code has it. For Kyverno and for Prometheus, when the
    configuration is not declared in the spec the deploy step returns
    success and calls nothing. The roles step has no such test: it hands
    the roles feature to [deployFeature] whatever the spec lists. *)
Theorem deploy_skips_undeclared_kyverno_prometheus st
    (id : configv1alpha1.FeatureID) :
  (id ≠ configv1alpha1.FeatureRole → skippedWhenNotConfigured st id)
  ∧ deployedFeatures (calls (deployStep configv1alpha1.FeatureRole st).2)
    = deployedFeatures (calls st) ++ [configv1alpha1.FeatureRole].
Proof.
  split.
  - intros Hid Hnc. destruct id; [done| |]; simpl in *;
      unfold deployKyverno, deployPrometheus, bind, getClusterSummary, ret;
      unfold featureSpec in Hnc; by rewrite Hnc.
  - simpl. unfold deployRoles. rewrite deployFeature_calls.
    unfold deployedFeatures. by rewrite omap_app.
Qed.

(** C7. When the fetch of the target cluster answers NotFound, [undeploy]
    returns success and leaves the pass state, call record included, as it
    was: no feature is handed to [undeployFeature]. *)
Theorem undeploy_cluster_not_found st (e : error) :
  client.Get_Cluster (Client (world st))
    (configv1alpha1.ClusterNamespace (configv1alpha1.Spec (clusterSummary st)))
    (configv1alpha1.ClusterName (configv1alpha1.Spec (clusterSummary st)))
  = Some e →
  apierrors.IsNotFound e = true →
  undeploy st = (None, st)
  ∧ undeployedFeatures (calls (undeploy st).2) = undeployedFeatures (calls st).
Proof.
  intros Hget Hnf.
  assert (H : undeploy st = (None, st)).
  { unfold undeploy, bind, getClusterSummary, getWorld, ret.
    by rewrite Hget, Hnf. }
  by rewrite H.
Qed.
End OrchestratorClaims.

(** ** Policy name prefix *)

Section PolicyPrefix.
Context {Rng : Type} `{!RandomSource Rng}.
Implicit Types (cs : configv1alpha1.ClusterSummary) (g : Rng).

Lemma charAt_alphanumeric i :
  i < String.length util.CharSet → alphanumeric (util.charAt i) = true.
Proof.
  intros Hi. simpl in Hi.
  do 36 (destruct i as [|i]; [reflexivity|]). lia.
Qed.

Lemma RandomString_length n g : String.length (util.RandomString n g).1 = n.
Proof.
  revert g. induction n as [|n IH]; intros g; [done|].
  cbn [util.RandomString].
  destruct (Intn _ g) as [i g1]. specialize (IH g1).
  destruct (util.RandomString n g1) as [rest g2]. simpl in *. by rewrite IH.
Qed.

Lemma RandomString_alphanumeric n g :
  all_alphanumeric (util.RandomString n g).1 = true.
Proof.
  revert g. induction n as [|n IH]; intros g; [done|].
  cbn [util.RandomString].
  pose proof (Intn_lt (String.length util.CharSet) g) as Hlt.
  destruct (Intn _ g) as [i g1]. specialize (IH g1).
  destruct (util.RandomString n g1) as [rest g2]. cbn [fst all_alphanumeric] in *.
  rewrite IH, charAt_alphanumeric; [done|]. apply Hlt. simpl. lia.
Qed.

Lemma generatePolicyNamePrefix_nonempty cs g :
  configv1alpha1.PolicyPrefix (configv1alpha1.Status (generatePolicyNamePrefix cs g).1)
  ≠ "".
Proof.
  unfold generatePolicyNamePrefix. case_decide as Hp; [|done].
  destruct (util.RandomString 10 g) as [suffix g']. simpl. discriminate.
Qed.

Lemma generatePolicyNamePrefix_times_set n cs g :
  configv1alpha1.PolicyPrefix (configv1alpha1.Status cs) ≠ "" →
  (generatePolicyNamePrefix_times n cs g) = (cs, g).
Proof.
  intros Hp. induction n as [|n IH]; [done|].
  cbn [generatePolicyNamePrefix_times]. unfold generatePolicyNamePrefix.
  by rewrite decide_False.
Qed.

Lemma charAt_get i :
  i < String.length util.CharSet →
  String.get i util.CharSet = Some (util.charAt i).
Proof.
  intros Hi. simpl in Hi.
  do 36 (destruct i as [|i]; [reflexivity|]). lia.
Qed.

Lemma charAt_inj i j :
  i < String.length util.CharSet → j < String.length util.CharSet →
  util.charAt i = util.charAt j → i = j.
Proof.
  intros Hi Hj Heq. simpl in Hi, Hj.
  assert (Hnd : NoDup (util.charAt <$> seq 0 36)).
  { apply (bool_decide_unpack _). vm_compute. exact I. }
  apply (proj1 (NoDup_alt _) Hnd i j (util.charAt i)).
  - rewrite list_lookup_fmap, lookup_seq_lt by done. done.
  - rewrite list_lookup_fmap, lookup_seq_lt by done. simpl. by rewrite Heq.
Qed.

Lemma drawAt_lt k g : drawAt k g < String.length util.CharSet.
Proof. unfold drawAt. apply Intn_lt. simpl. lia. Qed.

Lemma drawAt_S k g : drawAt (S k) g = drawAt k (nextGenerator g).
Proof. unfold drawAt. by rewrite Nat.iter_succ_r. Qed.

(** One round of the loop of [util.RandomString]. *)
Lemma RandomString_S n g :
  util.RandomString (S n) g
  = (String (util.charAt (drawAt 0 g)) (util.RandomString n (nextGenerator g)).1,
     (util.RandomString n (nextGenerator g)).2).
Proof.
  change (drawAt 0 g) with (Intn (String.length util.CharSet) g).1.
  unfold nextGenerator. cbn [util.RandomString].
  destruct (Intn _ g) as [i g1]. cbn [fst snd].
  by destruct (util.RandomString n g1) as [rest g2].
Qed.

(** Each draw moves the generator on once. *)
Lemma RandomString_generator n g :
  (util.RandomString n g).2 = Nat.iter n nextGenerator g.
Proof.
  revert g. induction n as [|n IH]; intros g; [done|].
  rewrite RandomString_S. cbn [snd]. by rewrite IH, Nat.iter_succ_r.
Qed.

(** The [k]-th character is the one [CharSet] has at the [k]-th draw. *)
Lemma RandomString_get n g k :
  k < n →
  String.get k (util.RandomString n g).1 = String.get (drawAt k g) util.CharSet.
Proof.
  revert g k. induction n as [|n IH]; intros g k Hk; [lia|].
  rewrite RandomString_S. cbn [fst]. destruct k as [|k].
  - cbn [String.get]. symmetry. apply charAt_get, drawAt_lt.
  - cbn [String.get]. rewrite IH by lia. by rewrite drawAt_S.
Qed.

(** Two generators give the same string exactly when their draws agree. *)
Lemma RandomString_same_draws n g g' :
  (util.RandomString n g').1 = (util.RandomString n g).1
  ↔ ∀ k, k < n → drawAt k g' = drawAt k g.
Proof.
  revert g g'. induction n as [|n IH]; intros g g'.
  - split; [intros _ k Hk; lia | done].
  - rewrite !RandomString_S. cbn [fst]. split.
    + intros [= Hch Hrest] k Hk. destruct k as [|k].
      * apply charAt_inj; [apply drawAt_lt..|done].
      * rewrite !drawAt_S. apply (proj1 (IH _ _) Hrest). lia.
    + intros Hk. f_equal.
      * by rewrite (Hk 0) by lia.
      * apply IH. intros k Hlt. rewrite <- !drawAt_S. apply Hk. lia.
Qed.

(** C9. [generatePolicyNamePrefix] sets an empty [Status.PolicyPrefix] to
    "cs" followed by the 10 characters of [util.RandomString]: it touches
    nothing else of the object, it moves the random source on by ten draws,
    and the [k]-th character is the alphanumeric character that [CharSet]
    has at the index of the [k]-th draw, so that two random sources give the
    same prefix exactly when their ten draws agree. A non-empty prefix is
    left unchanged however often it is called; so after the first call every
    further call keeps the prefix the first call left. *)
Theorem generatePolicyNamePrefix_once cs g :
  (configv1alpha1.PolicyPrefix (configv1alpha1.Status cs) = "" →
   let suffix := (util.RandomString 10 g).1 in
   generatePolicyNamePrefix cs g
   = (withPolicyPrefix cs ("cs" +:+ suffix), Nat.iter 10 nextGenerator g)
   ∧ String.length suffix = 10
   ∧ all_alphanumeric suffix = true
   ∧ (∀ k, k < 10 →
        drawAt k g < String.length util.CharSet
        ∧ String.get k suffix = String.get (drawAt k g) util.CharSet)
   ∧ (∀ g', (generatePolicyNamePrefix cs g').1 = (generatePolicyNamePrefix cs g).1
            ↔ ∀ k, k < 10 → drawAt k g' = drawAt k g))
  ∧ (configv1alpha1.PolicyPrefix (configv1alpha1.Status cs) ≠ "" →
     ∀ n, generatePolicyNamePrefix_times n cs g = (cs, g))
  ∧ (∀ n, configv1alpha1.PolicyPrefix
            (configv1alpha1.Status (generatePolicyNamePrefix_times (S n) cs g).1)
          = configv1alpha1.PolicyPrefix
              (configv1alpha1.Status (generatePolicyNamePrefix cs g).1)).
Proof.
  split; [|split].
  - intros Hp suffix.
    assert (Hgen : ∀ g0, generatePolicyNamePrefix cs g0
                         = (withPolicyPrefix cs ("cs" +:+ (util.RandomString 10 g0).1),
                            Nat.iter 10 nextGenerator g0)).
    { intros g0. unfold generatePolicyNamePrefix. rewrite decide_True by done.
      rewrite <- RandomString_generator.
      by destruct (util.RandomString 10 g0) as [s0 g1]. }
    split; [apply Hgen|].
    split; [apply RandomString_length|].
    split; [apply RandomString_alphanumeric|].
    split.
    + intros k Hk. split; [apply drawAt_lt | by apply RandomString_get].
    + intros g'. rewrite !Hgen. cbn [fst].
      rewrite <- RandomString_same_draws. split.
      * intros Heq.
        assert (Hpre : configv1alpha1.PolicyPrefix
                         (configv1alpha1.Status
                            (withPolicyPrefix cs ("cs" +:+ (util.RandomString 10 g').1)))
                       = configv1alpha1.PolicyPrefix
                           (configv1alpha1.Status
                              (withPolicyPrefix cs ("cs" +:+ suffix)))) by (by rewrite Heq).
        cbn in Hpre. by injection Hpre.
      * by intros ->.
  - intros Hp n. by apply generatePolicyNamePrefix_times_set.
  - intros n. cbn [generatePolicyNamePrefix_times].
    pose proof (generatePolicyNamePrefix_nonempty cs g) as Hne.
    destruct (generatePolicyNamePrefix cs g) as [cs1 g1]. cbn [fst] in *.
    by rewrite generatePolicyNamePrefix_times_set.
Qed.
End PolicyPrefix.

(** ** Content hash *)

Lemma append_assoc (a b c : string) : (a +:+ b) +:+ c = a +:+ (b +:+ c).
Proof.
  induction a as [|ch a IH]; [reflexivity|].
  change (String ch ((a +:+ b) +:+ c) = String ch (a +:+ (b +:+ c))).
  by f_equal.
Qed.

Lemma append_empty_r (a : string) : a +:+ "" = a.
Proof.
  induction a as [|ch a IH]; [reflexivity|].
  change (String ch (a +:+ "") = String ch a). by f_equal.
Qed.

Section ContentHash.
Context `{HashLibs}.
Implicit Types (c : client.Client) (refs : list corev1.ObjectReference).
Implicit Types (config : string).

(** Tolerated fetches never stop the loop; it renders what exists. *)
Lemma prometheusHash_refs_tolerated c refs config :
  Forall (fetchTolerated c) refs →
  prometheusHash_refs c refs config = inr (config +:+ renderFound c refs).
Proof.
  intros Hok. revert config.
  induction Hok as [|reference refs Hr _ IH]; intros config; simpl.
  - by rewrite append_empty_r.
  - unfold fetchTolerated in Hr.
    destruct (client.Get_ConfigMap _ _ _) as [err|cm].
    + by rewrite Hr.
    + by rewrite IH, append_assoc.
Qed.

(** The first fetch error that is not NotFound stops the loop. *)
Lemma prometheusHash_refs_error c l1 reference l2 config err :
  Forall (fetchTolerated c) l1 →
  client.Get_ConfigMap c (corev1.Namespace reference) (corev1.Name reference)
    = inl err →
  apierrors.IsNotFound err = false →
  prometheusHash_refs c (l1 ++ reference :: l2) config = inl err.
Proof.
  intros Hok Hget Hnf. revert config.
  induction Hok as [|r l1 Hr _ IH]; intros config; simpl.
  - by rewrite Hget, Hnf.
  - unfold fetchTolerated in Hr.
    destruct (client.Get_ConfigMap c (corev1.Namespace r) (corev1.Name r)) as [e|cm].
    + by rewrite Hr.
    + apply IH.
Qed.

(** A reference whose ConfigMap does not exist can be dropped from the
    rendering. *)
Lemma renderFound_drop_missing c l1 reference l2 err :
  client.Get_ConfigMap c (corev1.Namespace reference) (corev1.Name reference)
    = inl err →
  renderFound c (l1 ++ reference :: l2) = renderFound c (l1 ++ l2).
Proof.
  intros Hget. induction l1 as [|r l1 IH]; simpl.
  - by rewrite Hget.
  - by rewrite IH.
Qed.

(** C6. [prometheusHash] returns the hash of the empty input, and no
    error, when no Prometheus configuration is declared. When every fetch
    succeeds or answers NotFound it returns, without error, the hash of the
    rendering of the ConfigMaps that exist, to which a missing one adds
    nothing. When a fetch fails otherwise, the ones before it being
    tolerated, it returns that error and a nil hash. *)
Theorem prometheusHash_outcomes c (s : scope.ClusterSummaryScope) :
  (prometheusRefs s = None →
   prometheusHash c s = (Some (sha256_digest ""), None))
  ∧ (∀ refs, prometheusRefs s = Some refs →
     Forall (fetchTolerated c) refs →
     prometheusHash c s = (Some (sha256_digest (renderFound c refs)), None)
     ∧ ∀ l1 reference l2 err,
         refs = l1 ++ reference :: l2 →
         client.Get_ConfigMap c (corev1.Namespace reference) (corev1.Name reference)
           = inl err →
         renderFound c refs = renderFound c (l1 ++ l2))
  ∧ (∀ l1 reference l2 err,
     prometheusRefs s = Some (l1 ++ reference :: l2) →
     Forall (fetchTolerated c) l1 →
     client.Get_ConfigMap c (corev1.Namespace reference) (corev1.Name reference)
       = inl err →
     apierrors.IsNotFound err = false →
     prometheusHash c s = (None, Some err)).
Proof.
  unfold prometheusRefs, prometheusHash.
  destruct (configv1alpha1.PrometheusConfiguration _) as [p|]; simpl.
  - split; [done|]. split.
    + intros refs [= <-] Hok. split.
      * by rewrite prometheusHash_refs_tolerated.
      * intros l1 reference l2 err -> Hget.
        by eapply renderFound_drop_missing.
    + intros l1 reference l2 err [= Hp] Hok Hget Hnf.
      rewrite Hp. by erewrite prometheusHash_refs_error.
  - split; [done|]. split; [intros ? [=]|intros ???? [=]].
Qed.
End ContentHash.

(** ** Status scope *)

Section StatusScope.
Implicit Types (l : list configv1alpha1.FeatureSummary).
Implicit Types (featureID : configv1alpha1.FeatureID).
Implicit Types (f : configv1alpha1.FeatureSummary → configv1alpha1.FeatureSummary).

Lemma updateFirst_None featureID f l :
  updateFirst featureID f l = None ↔ featureID ∉ configv1alpha1.FeatureID_ <$> l.
Proof.
  induction l as [|fs l IH]; simpl.
  - split; [set_solver | done].
  - case_decide as Heq.
    + split; [done | set_solver].
    + destruct (updateFirst featureID f l); split; try done; set_solver.
Qed.

Lemma updateFirst_ids featureID f l l' :
  (∀ fs, configv1alpha1.FeatureID_ (f fs) = configv1alpha1.FeatureID_ fs) →
  updateFirst featureID f l = Some l' →
  configv1alpha1.FeatureID_ <$> l' = configv1alpha1.FeatureID_ <$> l.
Proof.
  intros Hf. revert l'. induction l as [|fs l IH]; intros l'; simpl; [done|].
  case_decide as Heq.
  - intros [= <-]. rewrite !fmap_cons. by rewrite Hf.
  - destruct (updateFirst featureID f l) as [l''|]; [|done].
    intros [= <-]. rewrite !fmap_cons. f_equal. by apply IH.
Qed.

Lemma findOrCreate_oneEntry featureID f fresh l :
  (∀ fs, configv1alpha1.FeatureID_ (f fs) = configv1alpha1.FeatureID_ fs) →
  configv1alpha1.FeatureID_ fresh = featureID →
  oneEntryPerFeature l → oneEntryPerFeature (findOrCreate featureID f fresh l).
Proof.
  intros Hf Hfresh Hnd. unfold findOrCreate, oneEntryPerFeature in *.
  destruct (updateFirst featureID f l) as [l'|] eqn:Hu.
  - by rewrite (updateFirst_ids _ _ _ _ Hf Hu).
  - apply updateFirst_None in Hu. rewrite fmap_app. simpl. rewrite Hfresh.
    apply NoDup_app. split; [done|]. split; [set_solver|].
    apply NoDup_singleton.
Qed.

Lemma mutate_oneEntry l (m : Mutation) :
  oneEntryPerFeature l → oneEntryPerFeature (mutate l m).
Proof.
  destruct m; simpl; apply findOrCreate_oneEntry; done.
Qed.

(** C8. On an empty status list, [SetFeatureStatus F Provisioning hash1]
    followed by [SetFeatureStatus F Provisioned hash2] leaves exactly one
    entry, for F, with status Provisioned and hash [hash2]; and whatever
    sequence of mutator calls starts from the empty list, the list keeps at
    most one entry per feature identifier. *)
Theorem SetFeatureStatus_overwrites featureID (hash1 hash2 : list Byte.byte) :
  SetFeatureStatus featureID configv1alpha1.FeatureStatusProvisioned hash2
    (SetFeatureStatus featureID configv1alpha1.FeatureStatusProvisioning hash1 [])
  = [ {| configv1alpha1.FeatureID_ := featureID;
         configv1alpha1.Status_ := Some configv1alpha1.FeatureStatusProvisioned;
         configv1alpha1.Hash := hash2;
         configv1alpha1.FailureReason := None;
         configv1alpha1.FailureMessage := None |} ]
  ∧ ∀ ms : list Mutation, oneEntryPerFeature (foldl mutate [] ms).
Proof.
  split.
  - unfold SetFeatureStatus, findOrCreate. simpl. by rewrite decide_True.
  - intros ms.
    assert (Hgen : ∀ l, oneEntryPerFeature l → oneEntryPerFeature (foldl mutate l ms)).
    { induction ms as [|m ms IH]; intros l Hl; simpl; [done|].
      by apply IH, mutate_oneEntry. }
    apply Hgen. apply NoDup_nil_2.
Qed.
End StatusScope.

(** ** The claims on concrete passes *)

Lemma deploy_attempts_all_features_witness :
  let st := examplePass [] fullSpec
              {| clusterGet := None; deployOutcome := rolesFail;
                 undeployOutcome := allSucceed |} in
  (@deploy Script scripted st).1 = Some (OtherError "roles failed")
  ∧ deployedFeatures (calls (@deploy Script scripted st).2)
    = [configv1alpha1.FeatureRole; configv1alpha1.FeatureKyverno;
       configv1alpha1.FeaturePrometheus].
Proof.
  intros st. split; [reflexivity|].
  apply (proj2 (proj2 (@deploy_attempts_all_features Script scripted st)));
    vm_compute; discriminate.
Defined.

Lemma reconcileDelete_outcome_witness :
  let finalizers := ["other"; "clustersummaryfinalizer.projectsveltos.io"] in
  let failing := examplePass finalizers fullSpec
                   {| clusterGet := None; deployOutcome := allSucceed;
                      undeployOutcome := rolesFail |} in
  let succeeding := examplePass finalizers fullSpec
                      {| clusterGet := None; deployOutcome := allSucceed;
                         undeployOutcome := allSucceed |} in
  ((@reconcileDelete Script scripted failing).1
   = ({| reconcile.Requeue := true; reconcile.RequeueAfter := 20000000000%Z |}, None)
   ∧ configv1alpha1.ObjectMeta (clusterSummary (@reconcileDelete Script scripted failing).2)
     = configv1alpha1.ObjectMeta (clusterSummary failing))
  ∧ ((@reconcileDelete Script scripted succeeding).1 = (reconcile.zero, None)
     ∧ controllerutil.ContainsFinalizer
         (configv1alpha1.ObjectMeta
            (clusterSummary (@reconcileDelete Script scripted succeeding).2))
         (@ClusterSummaryFinalizer Script scripted) = false).
Proof.
  intros finalizers failing succeeding. split.
  - apply (proj1 (@reconcileDelete_outcome Script scripted failing)
             (OtherError "roles failed")).
    reflexivity.
  - apply (proj2 (@reconcileDelete_outcome Script scripted succeeding)).
    reflexivity.
Defined.

(** On success the other finalizers are kept. *)
Example reconcileDelete_keeps_other_finalizers :
  metav1.Finalizers
    (configv1alpha1.ObjectMeta
       (clusterSummary
          (@reconcileDelete Script scripted
             (examplePass ["other"; "clustersummaryfinalizer.projectsveltos.io"]
                fullSpec
                {| clusterGet := None; deployOutcome := allSucceed;
                   undeployOutcome := allSucceed |})).2))
  = ["other"].
Proof. reflexivity. Qed.

Lemma deploy_skips_undeclared_kyverno_prometheus_witness :
  let st := examplePass [] emptySpec
              {| clusterGet := None; deployOutcome := allSucceed;
                 undeployOutcome := allSucceed |} in
  @deployStep Script scripted configv1alpha1.FeatureKyverno st = (None, st).
Proof.
  intros st.
  apply (proj1 (@deploy_skips_undeclared_kyverno_prometheus Script scripted st
                  configv1alpha1.FeatureKyverno)).
  - discriminate.
  - reflexivity.
Defined.

(** C5 as stated fails for roles: with a spec that declares nothing, and
    collaborators that succeed, the roles step still hands the roles feature
    to [deployFeature]. *)
Lemma deployRoles_invoked_when_not_configured :
  let st := examplePass [] emptySpec
              {| clusterGet := None; deployOutcome := allSucceed;
                 undeployOutcome := allSucceed |} in
  ¬ (∀ id, @skippedWhenNotConfigured Script scripted st id).
Proof.
  intros st Hall.
  specialize (Hall configv1alpha1.FeatureRole eq_refl).
  vm_compute in Hall. discriminate.
Qed.

Lemma undeploy_cluster_not_found_witness :
  let st := examplePass ["clustersummaryfinalizer.projectsveltos.io"] fullSpec
              {| clusterGet := Some (StatusNotFound "cluster not found");
                 deployOutcome := allSucceed; undeployOutcome := rolesFail |} in
  @undeploy Script scripted st = (None, st)
  ∧ undeployedFeatures (calls (@undeploy Script scripted st).2)
    = undeployedFeatures (calls st).
Proof.
  intros st.
  apply (@undeploy_cluster_not_found Script scripted st
           (StatusNotFound "cluster not found")); reflexivity.
Defined.

(** With the cluster present all three features are undeployed, and the
    first error is the one returned. *)
Example undeploy_cluster_found :
  let st := examplePass [] fullSpec
              {| clusterGet := None; deployOutcome := allSucceed;
                 undeployOutcome := rolesFail |} in
  (@undeploy Script scripted st).1 = Some (OtherError "roles failed")
  ∧ undeployedFeatures (calls (@undeploy Script scripted st).2)
    = [configv1alpha1.FeatureRole; configv1alpha1.FeatureKyverno;
       configv1alpha1.FeaturePrometheus].
Proof. split; reflexivity. Qed.

Lemma generatePolicyNamePrefix_once_witness :
  let cs := exampleSummary [] emptySpec in
  let cs1 := (@generatePolicyNamePrefix nat lcgSource cs 42).1 in
  let suffix := (@util.RandomString nat lcgSource 10 42).1 in
  (@generatePolicyNamePrefix nat lcgSource cs 42
   = (withPolicyPrefix cs ("cs" +:+ suffix),
      Nat.iter 10 (@nextGenerator nat lcgSource) 42)
   ∧ String.length suffix = 10
   ∧ all_alphanumeric suffix = true
   ∧ (∀ k, k < 10 →
        @drawAt nat lcgSource k 42 < String.length util.CharSet
        ∧ String.get k suffix
          = String.get (@drawAt nat lcgSource k 42) util.CharSet)
   ∧ (∀ g', (@generatePolicyNamePrefix nat lcgSource cs g').1 = cs1
            ↔ ∀ k, k < 10 → @drawAt nat lcgSource k g' = @drawAt nat lcgSource k 42))
  ∧ (∀ n, @generatePolicyNamePrefix_times nat lcgSource n cs1 7 = (cs1, 7)).
Proof.
  intros cs cs1 suffix. split.
  - apply (proj1 (@generatePolicyNamePrefix_once nat lcgSource cs 42)). reflexivity.
  - apply (proj1 (proj2 (@generatePolicyNamePrefix_once nat lcgSource cs1 7))).
    vm_compute. discriminate.
Defined.

(** The prefix follows the draws: the generator started at 42 gives one
    prefix, the one started at 43 another. *)
Example generatePolicyNamePrefix_follows_draws :
  configv1alpha1.PolicyPrefix
    (configv1alpha1.Status
       (@generatePolicyNamePrefix nat lcgSource (exampleSummary [] emptySpec) 42).1)
  = "cs6h3uvaqw97"
  ∧ configv1alpha1.PolicyPrefix
      (configv1alpha1.Status
         (@generatePolicyNamePrefix nat lcgSource (exampleSummary [] emptySpec) 43).1)
    ≠ "cs6h3uvaqw97".
Proof. split; [vm_compute; reflexivity | vm_compute; discriminate]. Qed.

Lemma prometheusHash_outcomes_witness :
  let rules := corev1.mkObjectReference "ns" "rules" in
  let missing := corev1.mkObjectReference "ns" "missing" in
  let broken := corev1.mkObjectReference "ns" "broken" in
  @prometheusHash toyHashLibs exampleClient (exampleScope "c" [])
  = (Some (@sha256_digest toyHashLibs ""), None)
  ∧ @prometheusHash toyHashLibs exampleClient (prometheusScope "c" [rules; missing])
    = (Some (@sha256_digest toyHashLibs
               (@renderFound toyHashLibs exampleClient [rules; missing])), None)
  ∧ @prometheusHash toyHashLibs exampleClient
      (prometheusScope "c" [rules; broken; missing])
    = (None, Some (OtherError "internal error")).
Proof.
  intros rules missing broken. split; [|split].
  - apply (proj1 (@prometheusHash_outcomes toyHashLibs exampleClient
                    (exampleScope "c" []))).
    reflexivity.
  - apply (proj1 (proj2 (@prometheusHash_outcomes toyHashLibs exampleClient
                           (prometheusScope "c" [rules; missing]))) [rules; missing]).
    + reflexivity.
    + repeat constructor.
  - apply (proj2 (proj2 (@prometheusHash_outcomes toyHashLibs exampleClient
                           (prometheusScope "c" [rules; broken; missing])))
             [rules] broken [missing] (OtherError "internal error")).
    + reflexivity.
    + repeat constructor.
    + reflexivity.
    + reflexivity.
Defined.

(** The missing ConfigMap leaves the hash as if it were not referenced. *)
Example prometheusHash_missing_adds_nothing :
  @prometheusHash toyHashLibs exampleClient
    (prometheusScope "c" [corev1.mkObjectReference "ns" "rules";
                          corev1.mkObjectReference "ns" "missing"])
  = @prometheusHash toyHashLibs exampleClient
      (prometheusScope "c" [corev1.mkObjectReference "ns" "rules"]).
Proof. vm_compute. reflexivity. Qed.

(** The overwrite scenario on a concrete feature and hashes. *)
Example SetFeatureStatus_scenario :
  length (SetFeatureStatus configv1alpha1.FeatureRole
            configv1alpha1.FeatureStatusProvisioned [Byte.x02]
            (SetFeatureStatus configv1alpha1.FeatureRole
               configv1alpha1.FeatureStatusProvisioning [Byte.x01] [])) = 1.
Proof. reflexivity. Qed.

(** A second feature gets an entry of its own. *)
Example SetFeatureStatus_other_feature :
  configv1alpha1.FeatureID_ <$>
    SetFeatureStatus configv1alpha1.FeatureRole
      configv1alpha1.FeatureStatusProvisioning [Byte.x02]
      (SetFeatureStatus configv1alpha1.FeatureKyverno
         configv1alpha1.FeatureStatusProvisioned [Byte.x01] [])
  = [configv1alpha1.FeatureKyverno; configv1alpha1.FeatureRole].
Proof. reflexivity. Qed.

(* ===================================================================== *)
(** * Part III. Further properties of the code *)
(* ===================================================================== *)

(** ** Reference index *)

Section IndexFurther.
Context `{EntryKeys}.
Implicit Types (r : ClusterSummaryReconciler) (s : scope.ClusterSummaryScope).
Implicit Types (c e name : string) (cur : gset string).

Lemma elem_of_foldl_Set_insert {A} (key : A → string) (l : list A) (s0 : gset string) e :
  e ∈ foldl (λ acc x, Set_insert acc (key x)) s0 l
  ↔ e ∈ s0 ∨ ∃ x, x ∈ l ∧ e = key x.
Proof.
  revert s0. induction l as [|x l IH]; intros s0; cbn [foldl].
  - split; [by left | intros [?|(x & Hx & _)]; [done | by apply elem_of_nil in Hx]].
  - rewrite IH. unfold Set_insert. rewrite elem_of_union, elem_of_singleton.
    split.
    + intros [[->|?]|(y & Hy & ->)]; [right; exists x | by left | right; exists y];
        split; try done; set_solver.
    + intros [?|(y & Hy & ->)]; [by left; right|].
      apply elem_of_cons in Hy as [->|Hy]; [by left; left | right; eauto].
Qed.

(** X1. An entry is among the current references of a ClusterSummary exactly
    when it is the key of one of its role references (kind WorkloadRole, no
    namespace), of a policy reference of its Kyverno configuration, or of
    one of its Prometheus references (both of kind ConfigMap); a nil
    configuration contributes nothing, and a repeated reference counts
    once. *)
Theorem getCurrentReferences_spec s e :
  e ∈ getCurrentReferences s
  ↔ (∃ ref, ref ∈ configv1alpha1.WorkloadRoleRefs
                    (configv1alpha1.ClusterFeatureSpec_
                       (configv1alpha1.Spec (scope.ClusterSummary s)))
            ∧ e = getEntryKey WorkloadRole "" (corev1.Name ref))
    ∨ (∃ ref, ref ∈ kyvernoPolicyRefs (scope.ClusterSummary s)
              ∧ e = getEntryKey ConfigMap (corev1.Namespace ref) (corev1.Name ref))
    ∨ (∃ ref, ref ∈ getPrometheusRefs (scope.ClusterSummary s)
              ∧ e = getEntryKey ConfigMap (corev1.Namespace ref) (corev1.Name ref)).
Proof.
  unfold getCurrentReferences, kyvernoPolicyRefs, getPrometheusRefs.
  destruct (configv1alpha1.PrometheusConfiguration _) as [p|];
    destruct (configv1alpha1.KyvernoConfiguration _) as [k|];
    rewrite ?elem_of_foldl_Set_insert; set_solver.
Qed.

Lemma elem_of_dom_index (m : gmap string (gset string)) e :
  e ∈ dom m ↔ is_Some (m !! e).
Proof. apply elem_of_dom. Qed.

(** X2. [updatesMaps] never deletes a key of [ReferenceMap]: afterwards the
    keys are the former ones together with the current references and the
    references recorded for the consumer before. *)
Theorem updatesMaps_keeps_entries r s :
  dom (ReferenceMap (updatesMaps r s))
  = dom (ReferenceMap r) ∪ getCurrentReferences s
    ∪ default ∅ (ClusterSummaryMap r !! scope.Name s).
Proof.
  unfold updatesMaps. apply set_eq. intros e.
  rewrite !elem_of_union, !elem_of_dom_index, updateReferences_lookup.
  repeat case_decide; rewrite ?is_Some_alt; naive_solver.
Qed.

(** X3. [updatesMaps] for one consumer leaves every other consumer alone:
    its recorded reference set is unchanged and it is a consumer of exactly
    the entries it was a consumer of. *)
Theorem updatesMaps_other_consumers r s c :
  c ≠ scope.Name s →
  ClusterSummaryMap (updatesMaps r s) !! c = ClusterSummaryMap r !! c
  ∧ ∀ e, referencedBy (updatesMaps r s) e c ↔ referencedBy r e c.
Proof.
  intros Hne. unfold updatesMaps. split.
  - rewrite updateReferences_ClusterSummaryMap. by rewrite lookup_insert_ne.
  - intros e. rewrite !referencedBy_default, updateReferences_lookup.
    repeat case_decide; cbn [default from_option]; set_solver.
Qed.

(** X4. When every entry that lists the consumer is among the references
    recorded for it, then after [updatesMaps] the consumer is listed for an
    entry exactly when its current spec references that entry. *)
Theorem updatesMaps_consumer_listed r s e :
  (∀ e', referencedBy r e' (scope.Name s) → consumes r (scope.Name s) e') →
  referencedBy (updatesMaps r s) e (scope.Name s) ↔ e ∈ getCurrentReferences s.
Proof.
  intros Hrec. specialize (Hrec e).
  rewrite referencedBy_default, consumes_default in Hrec.
  unfold updatesMaps. rewrite referencedBy_default, updateReferences_lookup.
  repeat case_decide; cbn [default from_option]; set_solver.
Qed.

(** X5. Index updates of two different consumers commute: whichever of the
    two reconciliations takes the lock first, the two maps end up the
    same. *)
Theorem updatesMaps_commute r s1 s2 :
  scope.Name s1 ≠ scope.Name s2 →
  updatesMaps (updatesMaps r s1) s2 = updatesMaps (updatesMaps r s2) s1.
Proof.
  intros Hne. unfold updatesMaps.
  generalize (getCurrentReferences s1) (getCurrentReferences s2).
  generalize dependent (scope.Name s2). generalize (scope.Name s1).
  intros c1 c2 Hne cur1 cur2. apply reconciler_eq.
  - apply map_eq. intros e.
    rewrite !updateReferences_lookup, !updateReferences_ClusterSummaryMap.
    rewrite !lookup_insert_ne by done.
    rewrite ?updateReferences_lookup.
    destruct (ReferenceMap r !! e) as [d|];
      repeat case_decide; cbn [default from_option]; try done;
      f_equal; set_solver.
  - rewrite !updateReferences_ClusterSummaryMap. by apply insert_insert_ne.
Qed.

(** X6. The two loops of [updatesMaps] give the same maps in whatever order
    the entries are visited. *)
Theorem updatesMaps_loops_any_order r name (l l' : list string) :
  l ≡ₚ l' →
  foldl (insertConsumer name) r l = foldl (insertConsumer name) r l'
  ∧ foldl (eraseConsumer name) r l = foldl (eraseConsumer name) r l'.
Proof.
  intros Hperm.
  assert (Hsame : ∀ e, e ∈ l ↔ e ∈ l') by (intros e; by rewrite Hperm).
  split; [by apply foldl_insertConsumer_order | by apply foldl_eraseConsumer_order].
Qed.
End IndexFurther.

(** ** Undeploy and delete *)

Section UndeployFurther.
Context {World : Type} `{!Collaborators World}.
Implicit Types (st : PassState World) (f : feature.t).

Lemma withStatus_withStatus cs a b : withStatus (withStatus cs a) b = withStatus cs b.
Proof. done. Qed.

Lemma withStatus_id cs : withStatus cs (configv1alpha1.Status cs) = cs.
Proof. by destruct cs. Qed.

(** Steps that reach the control resource through its status only. *)
Local Abbreviation statusOnly m :=
  (∀ st, ∃ status, clusterSummary (m st).2 = withStatus (clusterSummary st) status).

Lemma deployFeature_statusOnly f : statusOnly (deployFeature f).
Proof.
  intros st. unfold deployFeature.
  destruct (deployFeatureImpl f (clusterSummary st) (world st)) as [[e status] w].
  by exists status.
Qed.

Lemma undeployFeature_statusOnly f : statusOnly (undeployFeature f).
Proof.
  intros st. unfold undeployFeature.
  destruct (undeployFeatureImpl f (clusterSummary st) (world st)) as [[e status] w].
  by exists status.
Qed.

Lemma ret_statusOnly {A} (a : A) : statusOnly (ret (World := World) a).
Proof. intros st. exists (configv1alpha1.Status (clusterSummary st)). by rewrite withStatus_id. Qed.

Lemma getClusterSummary_statusOnly : statusOnly (getClusterSummary (World := World)).
Proof. intros st. exists (configv1alpha1.Status (clusterSummary st)). by rewrite withStatus_id. Qed.

Lemma getWorld_statusOnly : statusOnly (getWorld (World := World)).
Proof. intros st. exists (configv1alpha1.Status (clusterSummary st)). by rewrite withStatus_id. Qed.

Lemma bind_statusOnly {A B} (m : M World A) (k : A → M World B) :
  statusOnly m → (∀ a, statusOnly (k a)) → statusOnly (bind m k).
Proof.
  intros Hm Hk st. unfold bind. specialize (Hm st).
  destruct (m st) as [a st1]. destruct Hm as [s1 Hs1]. simpl in Hs1.
  destruct (Hk a st1) as [s2 Hs2]. exists s2. by rewrite Hs2, Hs1.
Qed.

Lemma deploy_statusOnly : statusOnly deploy.
Proof.
  unfold deploy, deployRoles, deployKyverno, deployPrometheus.
  repeat first
    [ apply deployFeature_statusOnly
    | apply ret_statusOnly
    | apply getClusterSummary_statusOnly
    | apply bind_statusOnly; [|intros ?]
    | match goal with |- context [match ?x with _ => _ end] => destruct x end ].
Qed.

Lemma undeploy_statusOnly : statusOnly undeploy.
Proof.
  unfold undeploy, undeployRoles, undeployKyverno, undeployPrometheus.
  repeat first
    [ apply undeployFeature_statusOnly
    | apply ret_statusOnly
    | apply getClusterSummary_statusOnly
    | apply getWorld_statusOnly
    | apply bind_statusOnly; [|intros ?]
    | match goal with |- context [match ?x with _ => _ end] => destruct x end ].
Qed.

Lemma deploy_calls_undeployed st :
  undeployedFeatures (calls (deploy st).2) = undeployedFeatures (calls st).
Proof.
  rewrite deploy_unfold. cbn [snd].
  unfold deployPrometheus, deployKyverno, deployRoles, bind, getClusterSummary, ret.
  repeat match goal with
         | |- context [match ?x with Some _ => _ | None => _ end] => destruct x
         end;
    cbn [fst snd]; rewrite ?deployFeature_calls;
    unfold undeployedFeatures; rewrite ?omap_app; simpl; by rewrite ?app_nil_r.
Qed.

Lemma undeploy_calls_deployed st :
  deployedFeatures (calls (undeploy st).2) = deployedFeatures (calls st).
Proof.
  unfold undeploy, bind, getClusterSummary, getWorld, ret.
  destruct (client.Get_Cluster _ _ _) as [e|].
  - by destruct (apierrors.IsNotFound e).
  - unfold undeployRoles, undeployKyverno, undeployPrometheus.
    repeat match goal with
           | |- context [undeployFeature ?f ?s] =>
               let H := fresh "H" in
               pose proof (undeployFeature_calls f s) as H;
               destruct (undeployFeature f s); cbn [fst snd] in H |- *
           end.
    unfold deployedFeatures in *.
    repeat match goal with H : calls _ = _ |- _ => rewrite H; clear H end.
    rewrite !omap_app. simpl. by rewrite !app_nil_r.
Qed.

(** X7. When the target cluster is found, [undeploy] hands all three
    features to [undeployFeature], in the order roles, kyverno, prometheus,
    whatever the spec declares and whatever the earlier ones returned, and
    returns the first error among the three results. *)
Theorem undeploy_runs_every_feature st :
  client.Get_Cluster (Client (world st))
    (configv1alpha1.ClusterNamespace (configv1alpha1.Spec (clusterSummary st)))
    (configv1alpha1.ClusterName (configv1alpha1.Spec (clusterSummary st)))
  = None →
  let roles := undeployRoles st in
  let kyverno := undeployKyverno roles.2 in
  let prometheus := undeployPrometheus kyverno.2 in
  undeploy st = (firstError roles.1 kyverno.1 prometheus.1, prometheus.2)
  ∧ undeployedFeatures (calls (undeploy st).2)
    = undeployedFeatures (calls st)
      ++ [configv1alpha1.FeatureRole; configv1alpha1.FeatureKyverno;
          configv1alpha1.FeaturePrometheus]
  ∧ (is_Some (undeploy st).1
     ↔ is_Some roles.1 ∨ is_Some kyverno.1 ∨ is_Some prometheus.1).
Proof.
  intros Hget roles kyverno prometheus.
  assert (Hun : undeploy st
                = (firstError roles.1 kyverno.1 prometheus.1, prometheus.2)).
  { subst roles kyverno prometheus.
    unfold undeploy, bind, getClusterSummary, getWorld, ret. rewrite Hget.
    destruct (undeployRoles st) as [e1 st1]; cbn [fst snd].
    destruct (undeployKyverno st1) as [e2 st2]; cbn [fst snd].
    by destruct (undeployPrometheus st2) as [e3 st3]. }
  rewrite Hun. cbn [fst snd]. split; [done|]. split; [|apply firstError_is_Some].
  subst roles kyverno prometheus.
  unfold undeployPrometheus, undeployKyverno, undeployRoles.
  rewrite !undeployFeature_calls. unfold undeployedFeatures.
  rewrite !omap_app. simpl. by rewrite <- !app_assoc.
Qed.

(** X8. When the fetch of the target cluster fails with an error other than
    NotFound, [undeploy] returns that error and hands nothing to
    [undeployFeature]: the pass state is untouched. *)
Theorem undeploy_fetch_error st (e : error) :
  client.Get_Cluster (Client (world st))
    (configv1alpha1.ClusterNamespace (configv1alpha1.Spec (clusterSummary st)))
    (configv1alpha1.ClusterName (configv1alpha1.Spec (clusterSummary st)))
  = Some e →
  apierrors.IsNotFound e = false →
  undeploy st = (Some e, st).
Proof.
  intros Hget Hnf. unfold undeploy, bind, getClusterSummary, getWorld, ret.
  by rewrite Hget, Hnf.
Qed.

Lemma reconcileDelete_effects st :
  (reconcileDelete st).1.2 = None
  ∧ deployedFeatures (calls (reconcileDelete st).2) = deployedFeatures (calls st)
  ∧ configv1alpha1.Spec (clusterSummary (reconcileDelete st).2)
    = configv1alpha1.Spec (clusterSummary st)
  ∧ metav1.Name (configv1alpha1.ObjectMeta (clusterSummary (reconcileDelete st).2))
    = metav1.Name (configv1alpha1.ObjectMeta (clusterSummary st))
  ∧ ∀ finalizer, finalizer ≠ ClusterSummaryFinalizer →
      finalizer ∈ metav1.Finalizers
                    (configv1alpha1.ObjectMeta (clusterSummary (reconcileDelete st).2))
      ↔ finalizer ∈ metav1.Finalizers (configv1alpha1.ObjectMeta (clusterSummary st)).
Proof.
  destruct (undeploy_statusOnly st) as [status Hst].
  pose proof (undeploy_calls_deployed st) as Hcalls.
  unfold reconcileDelete, bind.
  destruct (undeploy st) as [err st1]; cbn [fst snd] in *.
  destruct err as [e|].
  - unfold ret; cbn [fst snd]. rewrite Hst. simpl. done.
  - unfold getClusterSummary, putClusterSummary, ret.
    destruct (controllerutil.ContainsFinalizer _ _) eqn:Hc.
    + pose proof (RemoveFinalizer_spec
        (configv1alpha1.ObjectMeta (clusterSummary st1)) ClusterSummaryFinalizer)
        as [_ Hupd].
      unfold controllerutil.RemoveFinalizer in *. rewrite remove_spec in *.
      cbn [fst snd] in *. rewrite Hupd, Hc. cbn [negb fst snd].
      rewrite Hst; simpl. repeat split; try done.
      * intros Hin. apply list_elem_of_filter in Hin. tauto.
      * intros Hin. apply list_elem_of_filter. done.
    + cbn [fst snd]. rewrite Hst. simpl. done.
Qed.

(** X9. [reconcileDelete] never returns an error: a failed undeploy becomes
    a requeue, and removing the finalizer cannot fail once the object is
    seen to contain it. It hands nothing to [deployFeature], leaves the spec
    and the name as they were, and leaves every finalizer other than the
    ClusterSummary one in place. *)
Theorem reconcileDelete_never_fails st :
  (reconcileDelete st).1.2 = None
  ∧ deployedFeatures (calls (reconcileDelete st).2) = deployedFeatures (calls st)
  ∧ configv1alpha1.Spec (clusterSummary (reconcileDelete st).2)
    = configv1alpha1.Spec (clusterSummary st)
  ∧ metav1.Name (configv1alpha1.ObjectMeta (clusterSummary (reconcileDelete st).2))
    = metav1.Name (configv1alpha1.ObjectMeta (clusterSummary st))
  ∧ ∀ finalizer, finalizer ≠ ClusterSummaryFinalizer →
      finalizer ∈ metav1.Finalizers
                    (configv1alpha1.ObjectMeta (clusterSummary (reconcileDelete st).2))
      ↔ finalizer ∈ metav1.Finalizers (configv1alpha1.ObjectMeta (clusterSummary st)).
Proof. apply reconcileDelete_effects. Qed.
End UndeployFurther.

(** ** The normal path and the entry point *)

Section NormalPathFacts.
Context {World Rng : Type}.
Context `{!Collaborators World} `{!ReconcileEnv World}.
Context `{!EntryKeys} `{!RandomSource Rng}.
Implicit Types (st : PassState World) (ctl : Controller World Rng).
Implicit Types (cs : configv1alpha1.ClusterSummary).

Lemma getCurrentReferences_Spec cs cs' :
  configv1alpha1.Spec cs = configv1alpha1.Spec cs' →
  getCurrentReferences (scope.mkScope cs) = getCurrentReferences (scope.mkScope cs').
Proof. intros Hs. unfold getCurrentReferences. simpl. by rewrite Hs. Qed.

Lemma generatePolicyNamePrefix_statusOnly cs (g : Rng) :
  ∃ status, (generatePolicyNamePrefix cs g).1 = withStatus cs status.
Proof.
  unfold generatePolicyNamePrefix. case_decide.
  - destruct (util.RandomString 10 g) as [suffix g']. unfold withPolicyPrefix. eauto.
  - exists (configv1alpha1.Status cs). by rewrite withStatus_id.
Qed.

Lemma AddFinalizer_contains (o : metav1.ObjectMeta) finalizer :
  controllerutil.ContainsFinalizer (AddFinalizer o finalizer) finalizer = true.
Proof.
  unfold AddFinalizer.
  destruct (controllerutil.ContainsFinalizer o finalizer) eqn:Hc; [done|].
  rewrite ContainsFinalizer_spec. simpl. apply bool_decide_eq_true_2. set_solver.
Qed.

Lemma deploy_calls_roles_first st :
  ∃ rest, deployedFeatures (calls (deploy st).2)
          = deployedFeatures (calls st) ++ configv1alpha1.FeatureRole :: rest.
Proof.
  rewrite deploy_unfold. cbn [snd].
  unfold deployPrometheus, deployKyverno, deployRoles, bind, getClusterSummary, ret.
  repeat match goal with
         | |- context [match ?x with Some _ => _ | None => _ end] => destruct x
         end;
    cbn [fst snd]; rewrite ?deployFeature_calls;
    unfold deployedFeatures; rewrite ?omap_app; simpl;
    rewrite <- ?app_assoc; simpl; eauto.
Qed.

(** What [addFinalizer] does, step by step. *)
Lemma addFinalizer_unfold st :
  let cs' := withObjectMeta (clusterSummary st)
               (AddFinalizer (configv1alpha1.ObjectMeta (clusterSummary st))
                  ClusterSummaryFinalizer) in
  let patched := PatchObject cs' (world st) in
  addFinalizer st
  = (match patched.1 with
     | Some err =>
         Some (Wrapf err ("Failed to add finalizer for " +:+
                          metav1.Name (configv1alpha1.ObjectMeta (clusterSummary st))))
     | None => None
     end,
     {| clusterSummary := cs'; world := patched.2; calls := calls st |}).
Proof.
  intros cs' patched. subst patched.
  unfold addFinalizer, bind, getClusterSummary, putClusterSummary, patchObject, ret.
  cbn [clusterSummary world calls withWorld]. fold cs'.
  by destruct (PatchObject cs' (world st)) as [[e|] w].
Qed.

(** X10. When the object lacks the finalizer and patching it in fails,
    [reconcileNormal] returns the wrapped patch error and stops there: the
    index, the random source, the status and the call record are as before,
    so no prefix was generated and nothing was deployed. *)
Theorem reconcileNormal_patch_failure ctl (e : error) (w' : World) :
  controllerutil.ContainsFinalizer
    (configv1alpha1.ObjectMeta (clusterSummary (pass ctl))) ClusterSummaryFinalizer
  = false →
  PatchObject
    (withObjectMeta (clusterSummary (pass ctl))
       (AddFinalizer (configv1alpha1.ObjectMeta (clusterSummary (pass ctl)))
          ClusterSummaryFinalizer))
    (world (pass ctl)) = (Some e, w') →
  (reconcileNormal ctl).1
  = (reconcile.zero,
     Some (Wrapf e ("Failed to add finalizer for " +:+
                    metav1.Name (configv1alpha1.ObjectMeta (clusterSummary (pass ctl))))))
  ∧ reconciler (reconcileNormal ctl).2 = reconciler ctl
  ∧ rng (reconcileNormal ctl).2 = rng ctl
  ∧ calls (pass (reconcileNormal ctl).2) = calls (pass ctl)
  ∧ configv1alpha1.Status (clusterSummary (pass (reconcileNormal ctl).2))
    = configv1alpha1.Status (clusterSummary (pass ctl)).
Proof.
  intros Hc Hpatch. unfold reconcileNormal. rewrite Hc. cbn [negb].
  rewrite addFinalizer_unfold. cbv zeta. rewrite Hpatch. cbn [fst snd]. done.
Qed.

(** X11. When the object has the finalizer, or patching it in succeeds,
    [reconcileNormal] returns no error and either no requeue or a requeue
    after 20 seconds; afterwards the object carries the finalizer, the
    index records for the ClusterSummary exactly the references of its spec,
    and the roles feature was handed to [deployFeature]. *)
Theorem reconcileNormal_outcome ctl :
  controllerutil.ContainsFinalizer
    (configv1alpha1.ObjectMeta (clusterSummary (pass ctl))) ClusterSummaryFinalizer
  = true
  ∨ (PatchObject
       (withObjectMeta (clusterSummary (pass ctl))
          (AddFinalizer (configv1alpha1.ObjectMeta (clusterSummary (pass ctl)))
             ClusterSummaryFinalizer))
       (world (pass ctl))).1 = None →
  let out := reconcileNormal ctl in
  out.1.2 = None
  ∧ (out.1.1 = reconcile.zero
     ∨ out.1.1 = {| reconcile.Requeue := true;
                    reconcile.RequeueAfter := 20000000000%Z |})
  ∧ controllerutil.ContainsFinalizer
      (configv1alpha1.ObjectMeta (clusterSummary (pass out.2)))
      ClusterSummaryFinalizer = true
  ∧ ClusterSummaryMap (reconciler out.2)
      !! metav1.Name (configv1alpha1.ObjectMeta (clusterSummary (pass ctl)))
    = Some (getCurrentReferences (scope.mkScope (clusterSummary (pass ctl))))
  ∧ ∃ rest, deployedFeatures (calls (pass out.2))
            = deployedFeatures (calls (pass ctl)) ++ configv1alpha1.FeatureRole :: rest.
Proof.
  intros Hpre out. subst out. unfold reconcileNormal.
  set (F := ClusterSummaryFinalizer) in *.
  set (cs0 := clusterSummary (pass ctl)) in *.
  (* the state in which the prefix is generated *)
  assert (∃ st1,
    (if negb (controllerutil.ContainsFinalizer (configv1alpha1.ObjectMeta cs0) F)
     then addFinalizer (pass ctl) else (None, pass ctl)) = (None, st1)
    ∧ controllerutil.ContainsFinalizer
        (configv1alpha1.ObjectMeta (clusterSummary st1)) F = true
    ∧ configv1alpha1.Spec (clusterSummary st1) = configv1alpha1.Spec cs0
    ∧ metav1.Name (configv1alpha1.ObjectMeta (clusterSummary st1))
      = metav1.Name (configv1alpha1.ObjectMeta cs0)
    ∧ calls st1 = calls (pass ctl)) as (st1 & -> & Hfin & Hspec & Hname & Hcalls).
  { destruct (controllerutil.ContainsFinalizer (configv1alpha1.ObjectMeta cs0) F) eqn:Hc;
      cbn [negb].
    - by exists (pass ctl).
    - destruct Hpre as [?|Hpatch]; [done|].
      rewrite addFinalizer_unfold. cbv zeta. fold cs0 F. rewrite Hpatch.
      eexists. split; [reflexivity|]. cbn [clusterSummary calls].
      split; [apply AddFinalizer_contains|]. split; [done|]. split; [|done].
      unfold AddFinalizer. by destruct (controllerutil.ContainsFinalizer _ _). }
  destruct (generatePolicyNamePrefix_statusOnly (clusterSummary st1) (rng ctl))
    as [status1 Hgen].
  destruct (generatePolicyNamePrefix (clusterSummary st1) (rng ctl)) as [cs2 g2].
  cbn [fst] in Hgen. subst cs2.
  set (st2 := {| clusterSummary := withStatus (clusterSummary st1) status1;
                 world := world st1; calls := calls st1 |}).
  destruct (deploy_statusOnly st2) as [status3 Hdep].
  destruct (deploy_calls_roles_first st2) as [rest Hrest].
  destruct (deploy st2) as [err st3]. cbn [fst snd] in *.
  unfold st2 in Hrest, Hdep. cbn [calls clusterSummary] in Hrest, Hdep.
  assert (Hcur : getCurrentReferences
                   (scope.mkScope (withStatus (clusterSummary st1) status1))
                 = getCurrentReferences (scope.mkScope cs0)).
  { by apply getCurrentReferences_Spec. }
  assert (Hidx : ClusterSummaryMap
                   (updatesMaps (reconciler ctl)
                      (scope.mkScope (withStatus (clusterSummary st1) status1)))
                   !! metav1.Name (configv1alpha1.ObjectMeta cs0)
                 = Some (getCurrentReferences (scope.mkScope cs0))).
  { unfold updatesMaps. rewrite updateReferences_ClusterSummaryMap, Hcur.
    unfold scope.Name. cbn [scope.ClusterSummary withStatus configv1alpha1.ObjectMeta].
    rewrite Hname. apply lookup_insert_eq. }
  destruct err as [e|]; cbn [fst snd reconciler pass];
    (split; [done|]);
    (split; [first [by left | by right]|]);
    (split; [by rewrite Hdep|]); (split; [exact Hidx|]);
    exists rest; by rewrite Hrest, Hcalls.
Qed.

Lemma reconcileNormal_reconciler ctl :
  reconciler (reconcileNormal ctl).2 = reconciler ctl
  ∨ ∃ s, reconciler (reconcileNormal ctl).2 = updatesMaps (reconciler ctl) s.
Proof.
  unfold reconcileNormal.
  destruct (if negb _ then _ else _) as [[e|] st1]; [by left|].
  destruct (generatePolicyNamePrefix _ _) as [cs2 g2].
  destruct (deploy _) as [[e|] st3]; right; eauto.
Qed.

Lemma Reconcile_reconciler ctl req :
  reconciler (Reconcile ctl req).2 = reconciler ctl
  ∨ ∃ s, reconciler (Reconcile ctl req).2 = updatesMaps (reconciler ctl) s.
Proof.
  unfold Reconcile.
  destruct (Get_ClusterSummary _ _) as [e|fetched].
  { destruct (apierrors.IsNotFound e); by left. }
  destruct (getClusterFeatureOwner _ _); [by left|].
  destruct (NewClusterSummaryScope _ _); [by left|].
  destruct (negb (IsZero (DeletionTimestamp fetched))).
  - destruct (reconcileDelete _) as [[res err] st1].
    destruct (scope_Close _ _) as [[e|] w]; by left.
  - match goal with |- context [reconcileNormal ?c] =>
      pose proof (reconcileNormal_reconciler c) as Hn;
      destruct (reconcileNormal c) as [[res err] ctl1] end.
    cbn [snd reconciler] in Hn.
    destruct (scope_Close _ _) as [[e|] w]; exact Hn.
Qed.

(** X12. Every [Reconcile] call keeps the bidirectional invariant of the
    index, whatever the request and however the call ends; so does every
    sequence of calls. *)
Theorem Reconcile_bidirectional ctl (reqs : list string) :
  bidirectional (reconciler ctl) →
  bidirectional (reconciler (foldl (λ c req, (Reconcile c req).2) ctl reqs)).
Proof.
  revert ctl. induction reqs as [|req reqs IH]; intros ctl Hinv; cbn [foldl]; [done|].
  apply IH. destruct (Reconcile_reconciler ctl req) as [->|[s ->]]; [done|].
  by apply updatesMaps_step_bidirectional.
Qed.

End NormalPathFacts.

(** ** Prometheus handlers *)

(** X14. The three installation tests on a ClusterSummary: the standalone
    operator and the kube-prometheus stack are never both to be installed,
    exactly one of them is when a Prometheus configuration is present,
    kube-state-metrics is only ever installed together with the standalone
    operator, and nothing is installed for a nil ClusterSummary or a nil
    configuration. *)
Theorem shouldInstall_modes (clusterSummary : option PrometheusSummary) :
  shouldInstallPrometheusOperator clusterSummary
    && shouldInstallKubePrometheusStack clusterSummary = false
  ∧ shouldInstallKubeStateMetrics clusterSummary
      && negb (shouldInstallPrometheusOperator clusterSummary) = false
  ∧ xorb (shouldInstallPrometheusOperator clusterSummary)
         (shouldInstallKubePrometheusStack clusterSummary)
    = bool_decide (is_Some (clusterSummary ≫= prometheusConfiguration)).
Proof.
  unfold shouldInstallPrometheusOperator, shouldInstallKubePrometheusStack,
    shouldInstallKubeStateMetrics.
  destruct clusterSummary as [[[[[| |m] c q]|]]|]; simpl; done.
Qed.

Section PrometheusHandlerFacts.
Context {Remote : Type} `{!RemoteCluster Remote}.
Implicit Types (s : RemoteState Remote) (f g : Step Remote).
Implicit Types (P : RemoteAction → Prop).

(** Steps whose writes all satisfy [P]. *)
Local Abbreviation writes P f :=
  (∀ s, ∃ acts, applied (f s).2 = applied s ++ acts ∧ Forall P acts).

Lemma succeed_writes P : writes P succeed.
Proof. intros s. exists []. by rewrite app_nil_r. Qed.

Lemma failWith_writes P e : writes P (failWith e).
Proof. intros s. exists []. by rewrite app_nil_r. Qed.

Lemma deployDocStep_writes P doc : P (ActDeployDoc doc) → writes P (deployDocStep doc).
Proof.
  intros HP s. unfold deployDocStep. destruct (deployDoc doc (remote s)) as [e c].
  exists [ActDeployDoc doc]. split; [done|]. by constructor.
Qed.

Lemma createNamespaceStep_writes P ns :
  P (ActCreateNamespace ns) → writes P (createNamespaceStep ns).
Proof.
  intros HP s. unfold createNamespaceStep.
  destruct (createNamespace ns (remote s)) as [e c].
  exists [ActCreateNamespace ns]. split; [done|]. by constructor.
Qed.

Lemma updateStep_writes P inst : P (ActUpdate inst) → writes P (updateStep inst).
Proof.
  intros HP s. unfold updateStep.
  destruct (Update_PrometheusInstance inst (remote s)) as [e c].
  exists [ActUpdate inst]. split; [done|]. by constructor.
Qed.

Lemma orReturn_writes P f g : writes P f → writes P g → writes P (f >>> g).
Proof.
  intros Hf Hg s. unfold orReturn. destruct (Hf s) as (a1 & H1 & HP1).
  destruct (f s) as [[e|] s1]; cbn [snd] in *; [eauto|].
  destruct (Hg s1) as (a2 & H2 & HP2).
  exists (a1 ++ a2). rewrite H2, H1, app_assoc. split; [done|]. by apply Forall_app.
Qed.

Lemma orSucceed_writes P f g : writes P f → writes P g → writes P (orSucceed f g).
Proof.
  intros Hf Hg s. unfold orSucceed. destruct (Hf s) as (a1 & H1 & HP1).
  destruct (f s) as [[e|] s1]; cbn [snd] in *; [eauto|].
  destruct (Hg s1) as (a2 & H2 & HP2).
  exists (a1 ++ a2). rewrite H2, H1, app_assoc. split; [done|]. by apply Forall_app.
Qed.

Lemma when_writes P b f : writes P f → writes P (when b f).
Proof. intros Hf. destruct b; [done | apply succeed_writes]. Qed.

Lemma installWhenAbsent_writes P check f :
  writes P f → writes P (installWhenAbsent check f).
Proof.
  intros Hf s. unfold installWhenAbsent.
  destruct (check s) as [[present ready] [e|]]; [apply (failWith_writes P e)|].
  apply orReturn_writes; [by apply when_writes|].
  destruct (negb ready); [apply failWith_writes | apply succeed_writes].
Qed.

Lemma installWhenAbsent_outcome check f s present ready :
  check s = (present, ready, None) →
  ((installWhenAbsent check f s).1 = None
   ↔ ready = true ∧ (present = false → (f s).1 = None))
  ∧ (present = true → (installWhenAbsent check f s).2 = s).
Proof.
  intros Hc. unfold installWhenAbsent, orReturn, when, succeed, failWith. rewrite Hc.
  destruct present, ready; cbn [negb];
    try destruct (f s) as [[e|] s1]; cbn [fst snd]; naive_solver.
Qed.

(** X15. [deployPrometheusOperator] and [deployKubePrometheusStack] read
    present and ready before installing. When the check itself succeeds,
    each returns nil exactly when the deployment was reported ready and, if
    it was not present, the installation succeeded: installing a deployment
    that was not ready ends in an error even when the installation went
    through. When the deployment is present nothing is written. *)
Theorem installers_outcome s (present ready : bool) :
  isPrometheusOperatorReady s = (present, ready, None) →
  (((deployPrometheusOperator s).1 = None
    ↔ ready = true
      ∧ (present = false → (deployPrometheusOperatorInWorklaodCluster s).1 = None))
   ∧ (present = true → (deployPrometheusOperator s).2 = s))
  ∧ (((deployKubePrometheusStack s).1 = None
      ↔ ready = true
        ∧ (present = false → (deployKubePrometheusInWorklaodCluster s).1 = None))
     ∧ (present = true → (deployKubePrometheusStack s).2 = s)).
Proof.
  intros Hcheck. split; by apply installWhenAbsent_outcome.
Qed.

(** X16. [deployKubeStateMetrics] reports success when one of its three
    preliminary steps fails: an error from deploying the cluster role and
    binding, the Prometheus instance or the service monitor ends the call
    with a nil error, before kube-state-metrics is checked or installed. So
    it returns an error only when all three steps went through. *)
Theorem deployKubeStateMetrics_swallows s :
  let role := deployPrometheusClusterRole s in
  let prom := deployDocStep KubePrometheus_Prometheus role.2 in
  let monitor := deployDocStep KSMServiceMonitor prom.2 in
  (is_Some role.1 → deployKubeStateMetrics s = (None, role.2))
  ∧ (role.1 = None → is_Some prom.1 → deployKubeStateMetrics s = (None, prom.2))
  ∧ (role.1 = None → prom.1 = None → is_Some monitor.1 →
     deployKubeStateMetrics s = (None, monitor.2))
  ∧ (is_Some (deployKubeStateMetrics s).1 →
     role.1 = None ∧ prom.1 = None ∧ monitor.1 = None).
Proof.
  intros role prom monitor. subst monitor prom role.
  unfold deployKubeStateMetrics, orSucceed.
  destruct (deployPrometheusClusterRole s) as [[e1|] s1]; cbn [fst snd].
  { repeat split; try done; try (by intros [? [=]]); by intros [? ?]. }
  destruct (deployDocStep KubePrometheus_Prometheus s1) as [[e2|] s2]; cbn [fst snd].
  { repeat split; try done; try (by intros [? [=]]); by intros [? ?]. }
  destruct (deployDocStep KSMServiceMonitor s2) as [[e3|] s3]; cbn [fst snd].
  { repeat split; try done; try (by intros [? [=]]); by intros [? ?]. }
  repeat split; try done; by intros [? ?].
Qed.

(** X17. [addStorageConfig] does nothing, and returns nil, when there is no
    Prometheus configuration, no storage class name, or an empty one: the
    Prometheus instance is neither fetched nor updated. *)
Theorem addStorageConfig_not_requested (clusterSummary : PrometheusSummary) s :
  prometheusConfiguration clusterSummary ≫= StorageClassName = None
  ∨ prometheusConfiguration clusterSummary ≫= StorageClassName = Some "" →
  addStorageConfig clusterSummary s = (None, s).
Proof.
  unfold addStorageConfig.
  destruct (prometheusConfiguration clusterSummary) as [p|]; simpl; [|done].
  destruct (StorageClassName p) as [c|]; [|done].
  intros [[=]|[= ->]]. by rewrite decide_True.
Qed.

(** X18. With a storage class requested: a failed fetch of the Prometheus
    instance is returned and nothing is updated; an instance that has
    storage already is written back as it is, the request being ignored; an
    instance without storage is updated with the requested class and the
    requested quantity, or 40000000 when none is requested. *)
Theorem addStorageConfig_requested (clusterSummary : PrometheusSummary) s
    (p : PrometheusSettings) (storageClassName : string) :
  prometheusConfiguration clusterSummary = Some p →
  StorageClassName p = Some storageClassName →
  storageClassName ≠ "" →
  match getPrometheusInstance s with
  | inl err => addStorageConfig clusterSummary s = (Some err, s)
  | inr prometheusInstance =>
      match Storage prometheusInstance with
      | Some _ => addStorageConfig clusterSummary s = updateStep prometheusInstance s
      | None =>
          addStorageConfig clusterSummary s
          = updateStep
              {| Storage :=
                   Some {| VolumeStorageClassName := Some storageClassName;
                           StorageRequest :=
                             Some (default 40000000%Z (StorageQuantity p)) |} |} s
      end
  end.
Proof.
  intros Hp Hc Hne. unfold addStorageConfig. rewrite Hp, Hc, decide_False by done.
  destruct (getPrometheusInstance s) as [err|inst]; [done|].
  destruct (Storage inst); [done|]. by destruct (StorageQuantity p).
Qed.

Lemma installInCluster_writes P ns doc :
  P (ActCreateNamespace ns) → P (ActDeployDoc doc) →
  writes P (createNamespaceStep ns >>> deployDocStep doc).
Proof.
  intros Hns Hdoc.
  apply orReturn_writes; [by apply createNamespaceStep_writes | by apply deployDocStep_writes].
Qed.

Lemma deployKubeStateMetrics_writes P :
  (∀ doc, doc ≠ KubePrometheusYAML → doc ≠ PrometheusYAML → P (ActDeployDoc doc)) →
  (∀ ns, P (ActCreateNamespace ns)) →
  writes P deployKubeStateMetrics.
Proof.
  intros Hdoc Hns. unfold deployKubeStateMetrics, deployPrometheusClusterRole.
  repeat first
    [ apply orSucceed_writes | apply orReturn_writes | apply succeed_writes
    | apply installWhenAbsent_writes
    | apply createNamespaceStep_writes; apply Hns
    | apply deployDocStep_writes; by apply Hdoc ].
Qed.

Lemma addStorageConfig_writes P cs :
  (∀ inst, P (ActUpdate inst)) → writes P (addStorageConfig cs).
Proof.
  intros HP s. unfold addStorageConfig.
  destruct (prometheusConfiguration cs) as [p|]; [|apply (succeed_writes P)].
  destruct (StorageClassName p) as [c|]; [|apply (succeed_writes P)].
  case_decide; [apply (succeed_writes P)|].
  destruct (getPrometheusInstance s) as [e|inst]; [apply (failWith_writes P e)|].
  apply updateStep_writes, HP.
Qed.

(** In mode KubePrometheus the only manifest is the kube-prometheus one. *)
Lemma handler_writes_stack cs p :
  prometheusConfiguration cs = Some p →
  InstallationMode p = PrometheusInstallationModeKubePrometheus →
  writes (λ a, ∀ doc, a = ActDeployDoc doc → doc = KubePrometheusYAML)
         (deployPrometheus_handler (inr cs)).
Proof.
  intros Hp Hm. unfold deployPrometheus_handler, shouldInstallPrometheusOperator,
    shouldInstallKubeStateMetrics, shouldInstallKubePrometheusStack.
  rewrite Hp, Hm. cbn [bool_decide negb].
  repeat first
    [ apply orReturn_writes | apply succeed_writes | apply when_writes
    | apply installWhenAbsent_writes
    | apply addStorageConfig_writes; by intros ?? [=]
    | apply createNamespaceStep_writes; by intros ? [=]
    | apply deployDocStep_writes; by intros ? [= <-] ].
Qed.

(** In every other mode the kube-prometheus manifest is never applied. *)
Lemma handler_writes_operator cs :
  (∀ p, prometheusConfiguration cs = Some p →
        InstallationMode p ≠ PrometheusInstallationModeKubePrometheus) →
  writes (λ a, a ≠ ActDeployDoc KubePrometheusYAML)
         (deployPrometheus_handler (inr cs)).
Proof.
  intros Hm. unfold deployPrometheus_handler.
  assert (Hstack : shouldInstallKubePrometheusStack (Some cs) = false).
  { unfold shouldInstallKubePrometheusStack.
    destruct (prometheusConfiguration cs) as [p|]; [|done].
    apply bool_decide_eq_false_2. by apply Hm. }
  rewrite Hstack.
  repeat first
    [ apply orReturn_writes | apply succeed_writes | apply when_writes
    | apply installWhenAbsent_writes
    | apply addStorageConfig_writes; intros; congruence
    | apply deployKubeStateMetrics_writes; intros; congruence
    | apply createNamespaceStep_writes; congruence
    | apply deployDocStep_writes; congruence ].
Qed.

(** X19. One call of the Prometheus deploy handler never applies the
    kube-prometheus manifest together with another manifest: in mode
    KubePrometheus the kube-prometheus manifest is the only one it may
    apply, and in every other mode it never applies that one. When the
    ClusterSummary cannot be fetched it returns the fetch error and writes
    nothing. *)
Theorem deployPrometheus_handler_manifests (fetched : error + PrometheusSummary) s :
  ∃ acts,
    applied (deployPrometheus_handler fetched s).2 = applied s ++ acts
    ∧ (ActDeployDoc KubePrometheusYAML ∈ acts →
       ∀ doc, ActDeployDoc doc ∈ acts → doc = KubePrometheusYAML)
    ∧ (∀ err, fetched = inl err →
       acts = [] ∧ (deployPrometheus_handler fetched s).1 = Some err).
Proof.
  destruct fetched as [err|cs].
  { exists []. simpl. rewrite app_nil_r. split; [done|]. split; [set_solver|].
    by intros ? [= ->]. }
  destruct (prometheusConfiguration cs) as [p|] eqn:Hp.
  - destruct (decide (InstallationMode p = PrometheusInstallationModeKubePrometheus))
      as [Hm|Hm].
    + destruct (handler_writes_stack cs p Hp Hm s) as (acts & Ha & HP).
      exists acts. split; [done|]. split; [|done].
      intros _ doc Hdoc. rewrite Forall_forall in HP. by apply (HP _ Hdoc).
    + destruct (handler_writes_operator cs) with (s := s) as (acts & Ha & HP).
      { intros p' ?. by simplify_eq. }
      exists acts. split; [done|]. split; [|done].
      intros Hin. rewrite Forall_forall in HP. by destruct (HP _ Hin).
  - destruct (handler_writes_operator cs) with (s := s) as (acts & Ha & HP).
    { intros p' ?. by simplify_eq. }
    exists acts. split; [done|]. split; [|done].
    intros Hin. rewrite Forall_forall in HP. by destruct (HP _ Hin).
Qed.
End PrometheusHandlerFacts.

(** ** Status scope and string sets, as their tests exercise them *)

Section StatusScopeFurther.
Implicit Types (l : list configv1alpha1.FeatureSummary).
Implicit Types (featureID : configv1alpha1.FeatureID).
Implicit Types (f : configv1alpha1.FeatureSummary → configv1alpha1.FeatureSummary).
Implicit Types (fresh : configv1alpha1.FeatureSummary).

Lemma findOrCreate_summaryFor featureID f fresh l :
  (∀ fs, configv1alpha1.FeatureID_ (f fs) = configv1alpha1.FeatureID_ fs) →
  configv1alpha1.FeatureID_ fresh = featureID →
  summaryFor featureID (findOrCreate featureID f fresh l)
  = Some (match summaryFor featureID l with
          | Some fs => f fs
          | None => fresh
          end).
Proof.
  intros Hf Hfresh. unfold findOrCreate, summaryFor.
  induction l as [|fs l IH]; cbn [updateFirst find app].
  - by rewrite bool_decide_eq_true_2.
  - destruct (decide (configv1alpha1.FeatureID_ fs = featureID)) as [Heq|Hne].
    + rewrite (bool_decide_eq_true_2 _ Heq). cbn [find].
      by rewrite bool_decide_eq_true_2 by (by rewrite Hf).
    + rewrite (bool_decide_eq_false_2 _ Hne).
      destruct (updateFirst featureID f l) as [l'|]; cbn [find app] in *;
        by rewrite (bool_decide_eq_false_2 _ Hne).
Qed.

Lemma findOrCreate_length featureID f fresh l :
  length (findOrCreate featureID f fresh l)
  = length l + (if summaryFor featureID l is Some _ then 0 else 1).
Proof.
  unfold findOrCreate, summaryFor.
  induction l as [|fs l IH]; cbn [updateFirst find app length]; [done|].
  destruct (decide (configv1alpha1.FeatureID_ fs = featureID)) as [Heq|Hne].
  - rewrite (bool_decide_eq_true_2 _ Heq). simpl. lia.
  - rewrite (bool_decide_eq_false_2 _ Hne).
    destruct (updateFirst featureID f l) as [l'|]; cbn [length app] in *; lia.
Qed.

Lemma findOrCreate_others featureID f fresh l :
  (∀ fs, configv1alpha1.FeatureID_ (f fs) = configv1alpha1.FeatureID_ fs) →
  configv1alpha1.FeatureID_ fresh = featureID →
  otherSummaries featureID (findOrCreate featureID f fresh l)
  = otherSummaries featureID l.
Proof.
  intros Hf Hfresh. unfold findOrCreate, otherSummaries.
  induction l as [|fs l IH]; cbn [updateFirst app].
  - by rewrite filter_cons_False by naive_solver.
  - destruct (decide (configv1alpha1.FeatureID_ fs = featureID)) as [Heq|Hne].
    + rewrite !filter_cons_False; [done | naive_solver | rewrite Hf; naive_solver].
    + destruct (updateFirst featureID f l) as [l'|]; cbn [app] in *;
        rewrite !filter_cons_True by done; by rewrite IH.
Qed.

(** X20. After [SetFeatureStatus] the entry of the feature, the first with
    its identifier, has the given status and hash; the list is one entry
    longer when the feature had no entry and as long as before otherwise;
    and the entries of the other features are untouched. *)
Theorem SetFeatureStatus_lookup featureID (status : configv1alpha1.FeatureStatus)
    (hash : list Byte.byte) l :
  let l' := SetFeatureStatus featureID status hash l in
  (∃ fs, summaryFor featureID l' = Some fs
         ∧ configv1alpha1.FeatureID_ fs = featureID
         ∧ configv1alpha1.Status_ fs = Some status
         ∧ configv1alpha1.Hash fs = hash)
  ∧ length l' = length l + (if summaryFor featureID l is Some _ then 0 else 1)
  ∧ otherSummaries featureID l' = otherSummaries featureID l.
Proof.
  intros l'. subst l'. unfold SetFeatureStatus. split; [|split].
  - rewrite findOrCreate_summaryFor by done.
    destruct (summaryFor featureID l) as [fs|] eqn:Hfs; eexists; split; try done.
    simpl. repeat split; try done.
    unfold summaryFor in Hfs. apply find_some in Hfs as [_ Hid].
    by apply bool_decide_eq_true_1 in Hid.
  - apply findOrCreate_length.
  - by apply findOrCreate_others.
Qed.

(** X21. After [SetFailureMessage] or [SetFailureReason] the entry of the
    feature carries the given message or reason, an entry being created
    when the feature had none; the entries of the other features are
    untouched. *)
Theorem SetFailure_lookup featureID (text : option string) l :
  ((∃ fs, summaryFor featureID (SetFailureMessage featureID text l) = Some fs
          ∧ configv1alpha1.FailureMessage fs = text)
   ∧ length (SetFailureMessage featureID text l)
     = length l + (if summaryFor featureID l is Some _ then 0 else 1)
   ∧ otherSummaries featureID (SetFailureMessage featureID text l)
     = otherSummaries featureID l)
  ∧ ((∃ fs, summaryFor featureID (SetFailureReason featureID text l) = Some fs
            ∧ configv1alpha1.FailureReason fs = text)
     ∧ length (SetFailureReason featureID text l)
       = length l + (if summaryFor featureID l is Some _ then 0 else 1)
     ∧ otherSummaries featureID (SetFailureReason featureID text l)
       = otherSummaries featureID l).
Proof.
  unfold SetFailureMessage, SetFailureReason.
  split; (split; [|split; [apply findOrCreate_length | by apply findOrCreate_others]]);
    rewrite findOrCreate_summaryFor by done;
    destruct (summaryFor featureID l); eauto.
Qed.
End StatusScopeFurther.

Section StringSets.
Implicit Types (s : gset string) (entry : string).

(** X22. The string set, as its tests use it: an inserted entry is in the
    set and among its items, an erased one is not; inserting a new entry
    makes the set one longer, inserting a present one leaves it as it is;
    and erasing an entry that was just inserted new gives the set back. *)
Theorem Set_insert_erase s entry :
  Set_has (Set_insert s entry) entry = true
  ∧ entry ∈ Set_items (Set_insert s entry)
  ∧ Set_has (Set_erase s entry) entry = false
  ∧ Set_len (Set_insert s entry)
    = (if Set_has s entry then Set_len s else S (Set_len s))
  ∧ Set_len (Set_erase (Set_insert s entry) entry)
    = (if Set_has s entry then Set_len s - 1 else Set_len s)
  ∧ (Set_has s entry = false → Set_erase (Set_insert s entry) entry = s).
Proof.
  unfold Set_has, Set_len, Set_insert, Set_erase, Set_items.
  assert (Hlen : ∀ X : gset string, length (elements X) = size X) by done.
  rewrite !Hlen.
  split; [apply bool_decide_eq_true_2; set_solver|].
  split; [apply elem_of_elements; set_solver|].
  split; [apply bool_decide_eq_false_2; set_solver|].
  destruct (decide (entry ∈ s)) as [Hin|Hnin].
  - rewrite (bool_decide_eq_true_2 _ Hin).
    replace ({[entry]} ∪ s) with s by set_solver.
    split; [done|]. split; [|done].
    assert (Hsz : size s = size (s ∖ {[entry]}) + size ({[entry]} : gset string)).
    { rewrite <- size_union by set_solver. f_equal.
      apply set_eq. intros x. destruct (decide (x = entry)); set_solver. }
    rewrite size_singleton in Hsz. lia.
  - rewrite (bool_decide_eq_false_2 _ Hnin).
    split; [rewrite size_union, size_singleton by set_solver; lia|].
    replace (({[entry]} ∪ s) ∖ {[entry]}) with s by set_solver.
    done.
Qed.
End StringSets.

(** ** The further properties on concrete inputs *)

Lemma updatesMaps_other_consumers_witness :
  let r := @updatesMaps dashEntryKeys emptyReconciler (exampleScope "d" ["B"]) in
  let s := exampleScope "c" ["A"; "B"] in
  ClusterSummaryMap (@updatesMaps dashEntryKeys r s) !! "d" = ClusterSummaryMap r !! "d"
  ∧ ∀ e, referencedBy (@updatesMaps dashEntryKeys r s) e "d" ↔ referencedBy r e "d".
Proof.
  intros r s. apply (@updatesMaps_other_consumers dashEntryKeys r s "d"). discriminate.
Defined.

Lemma updatesMaps_consumer_listed_witness :
  let r := @updatesMaps dashEntryKeys emptyReconciler (exampleScope "c" ["A"; "B"]) in
  let s := exampleScope "c" ["B"] in
  referencedBy (@updatesMaps dashEntryKeys r s) "WorkloadRole-A" "c"
  ↔ "WorkloadRole-A" ∈ @getCurrentReferences dashEntryKeys s.
Proof.
  intros r s. apply (@updatesMaps_consumer_listed dashEntryKeys r s "WorkloadRole-A").
  intros e' He'.
  by apply (@updatesMaps_step_bidirectional dashEntryKeys emptyReconciler
              (exampleScope "c" ["A"; "B"]) emptyReconciler_bidirectional).
Defined.

Lemma updatesMaps_commute_witness :
  let s1 := exampleScope "c" ["A"; "B"] in
  let s2 := exampleScope "d" ["B"] in
  @updatesMaps dashEntryKeys (@updatesMaps dashEntryKeys emptyReconciler s1) s2
  = @updatesMaps dashEntryKeys (@updatesMaps dashEntryKeys emptyReconciler s2) s1.
Proof.
  intros s1 s2. apply (@updatesMaps_commute dashEntryKeys emptyReconciler s1 s2).
  discriminate.
Defined.

Lemma updatesMaps_loops_any_order_witness :
  foldl (insertConsumer "c") emptyReconciler ["A"; "B"]
  = foldl (insertConsumer "c") emptyReconciler ["B"; "A"]
  ∧ foldl (eraseConsumer "c") emptyReconciler ["A"; "B"]
    = foldl (eraseConsumer "c") emptyReconciler ["B"; "A"].
Proof.
  apply (updatesMaps_loops_any_order emptyReconciler "c" ["A"; "B"] ["B"; "A"]).
  apply perm_swap.
Defined.

Lemma undeploy_runs_every_feature_witness :
  let st := examplePass [] emptySpec
              {| clusterGet := None; deployOutcome := allSucceed;
                 undeployOutcome := rolesFail |} in
  let roles := @undeployRoles Script scripted st in
  let kyverno := @undeployKyverno Script scripted roles.2 in
  let prometheus := @undeployPrometheus Script scripted kyverno.2 in
  @undeploy Script scripted st
  = (firstError roles.1 kyverno.1 prometheus.1, prometheus.2)
  ∧ undeployedFeatures (calls (@undeploy Script scripted st).2)
    = undeployedFeatures (calls st)
      ++ [configv1alpha1.FeatureRole; configv1alpha1.FeatureKyverno;
          configv1alpha1.FeaturePrometheus]
  ∧ (is_Some (@undeploy Script scripted st).1
     ↔ is_Some roles.1 ∨ is_Some kyverno.1 ∨ is_Some prometheus.1).
Proof.
  intros st. apply (@undeploy_runs_every_feature Script scripted st). reflexivity.
Defined.

Lemma undeploy_fetch_error_witness :
  let st := examplePass [] fullSpec
              {| clusterGet := Some (OtherError "timeout");
                 deployOutcome := allSucceed; undeployOutcome := allSucceed |} in
  @undeploy Script scripted st = (Some (OtherError "timeout"), st).
Proof.
  intros st.
  apply (@undeploy_fetch_error Script scripted st (OtherError "timeout")); reflexivity.
Defined.

Lemma reconcileDelete_never_fails_witness :
  let st := examplePass ["other"; "clustersummaryfinalizer.projectsveltos.io"] fullSpec
              {| clusterGet := None; deployOutcome := allSucceed;
                 undeployOutcome := allSucceed |} in
  "other" ∈ metav1.Finalizers
              (configv1alpha1.ObjectMeta
                 (clusterSummary (@reconcileDelete Script scripted st).2))
  ↔ "other" ∈ metav1.Finalizers (configv1alpha1.ObjectMeta (clusterSummary st)).
Proof.
  intros st.
  apply (proj2 (proj2 (proj2 (proj2 (@reconcileDelete_never_fails Script scripted st))))
           "other").
  discriminate.
Defined.

Lemma reconcileNormal_patch_failure_witness :
  let ctl := exampleController
               {| passScript := {| clusterGet := None; deployOutcome := allSucceed;
                                   undeployOutcome := allSucceed |};
                  fetchAnswer := inl (StatusNotFound "gone");
                  patchOutcome := Some (OtherError "conflict");
                  closeOutcome := None |} in
  let out := @reconcileNormal ReconcileScript nat scriptedPass scriptedEnv
               dashEntryKeys lcgSource ctl in
  out.1 = (reconcile.zero, Some (OtherError "Failed to add finalizer for c: conflict"))
  ∧ reconciler out.2 = reconciler ctl
  ∧ rng out.2 = rng ctl
  ∧ calls (pass out.2) = calls (pass ctl)
  ∧ configv1alpha1.Status (clusterSummary (pass out.2))
    = configv1alpha1.Status (clusterSummary (pass ctl)).
Proof.
  intros ctl.
  apply (@reconcileNormal_patch_failure ReconcileScript nat scriptedPass scriptedEnv
           dashEntryKeys lcgSource ctl (OtherError "conflict") (world (pass ctl)));
    reflexivity.
Defined.

Lemma reconcileNormal_outcome_witness :
  let ctl := exampleController
               {| passScript := {| clusterGet := None; deployOutcome := rolesFail;
                                   undeployOutcome := allSucceed |};
                  fetchAnswer := inl (StatusNotFound "gone");
                  patchOutcome := None;
                  closeOutcome := None |} in
  let out := @reconcileNormal ReconcileScript nat scriptedPass scriptedEnv
               dashEntryKeys lcgSource ctl in
  out.1.2 = None
  ∧ (out.1.1 = reconcile.zero
     ∨ out.1.1 = {| reconcile.Requeue := true;
                    reconcile.RequeueAfter := 20000000000%Z |})
  ∧ controllerutil.ContainsFinalizer
      (configv1alpha1.ObjectMeta (clusterSummary (pass out.2)))
      (@ClusterSummaryFinalizer ReconcileScript scriptedPass) = true
  ∧ ClusterSummaryMap (reconciler out.2) !! "c"
    = Some (@getCurrentReferences dashEntryKeys
              (scope.mkScope (clusterSummary (pass ctl))))
  ∧ ∃ rest, deployedFeatures (calls (pass out.2))
            = deployedFeatures (calls (pass ctl)) ++ configv1alpha1.FeatureRole :: rest.
Proof.
  intros ctl.
  apply (@reconcileNormal_outcome ReconcileScript nat scriptedPass scriptedEnv
           dashEntryKeys lcgSource ctl).
  right. reflexivity.
Defined.

(** The failing roles feature turns the normal pass into a requeue. *)
Example reconcileNormal_requeues :
  (@reconcileNormal ReconcileScript nat scriptedPass scriptedEnv dashEntryKeys lcgSource
     (exampleController
        {| passScript := {| clusterGet := None; deployOutcome := rolesFail;
                            undeployOutcome := allSucceed |};
           fetchAnswer := inl (StatusNotFound "gone");
           patchOutcome := None;
           closeOutcome := None |})).1
  = ({| reconcile.Requeue := true; reconcile.RequeueAfter := 20000000000%Z |}, None).
Proof. vm_compute. reflexivity. Qed.

Lemma Reconcile_bidirectional_witness :
  let ctl := exampleController
               {| passScript := {| clusterGet := None; deployOutcome := allSucceed;
                                   undeployOutcome := allSucceed |};
                  fetchAnswer := inr (mkFetched (exampleSummary [] fullSpec) None);
                  patchOutcome := None;
                  closeOutcome := None |} in
  bidirectional
    (reconciler
       (foldl (λ c req,
                 (@Reconcile ReconcileScript nat scriptedPass scriptedEnv
                    dashEntryKeys lcgSource c req).2) ctl ["c"; "c"])).
Proof.
  intros ctl.
  apply (@Reconcile_bidirectional ReconcileScript nat scriptedPass scriptedEnv
           dashEntryKeys lcgSource ctl ["c"; "c"]).
  apply emptyReconciler_bidirectional.
Defined.


Lemma installers_outcome_witness :
  let s := {| remote := {| readiness := λ _, (false, false, None);
                           failingDoc := None;
                           instance := inl (StatusNotFound "no instance") |};
              applied := [] |} in
  (((@deployPrometheusOperator RemoteScript scriptedRemote s).1 = None
    ↔ false = true
      ∧ (false = false →
         (@deployPrometheusOperatorInWorklaodCluster RemoteScript scriptedRemote s).1
         = None))
   ∧ (false = true → (@deployPrometheusOperator RemoteScript scriptedRemote s).2 = s))
  ∧ (((@deployKubePrometheusStack RemoteScript scriptedRemote s).1 = None
      ↔ false = true
        ∧ (false = false →
           (@deployKubePrometheusInWorklaodCluster RemoteScript scriptedRemote s).1
           = None))
     ∧ (false = true → (@deployKubePrometheusStack RemoteScript scriptedRemote s).2 = s)).
Proof.
  intros s. apply (@installers_outcome RemoteScript scriptedRemote s false false).
  reflexivity.
Defined.

(** A first installation applies the manifest and still returns an error. *)
Example deployPrometheusOperator_first_install :
  let s := {| remote := {| readiness := λ _, (false, false, None);
                           failingDoc := None;
                           instance := inl (StatusNotFound "no instance") |};
              applied := [] |} in
  (@deployPrometheusOperator RemoteScript scriptedRemote s).1
  = Some (OtherError "prometheus operator deployment is not ready yet")
  ∧ applied (@deployPrometheusOperator RemoteScript scriptedRemote s).2
    = [ActCreateNamespace prometheus_Namespace; ActDeployDoc PrometheusYAML].
Proof. split; reflexivity. Qed.

Lemma deployKubeStateMetrics_swallows_witness :
  let s := {| remote := {| readiness := λ _, (false, false, None);
                           failingDoc := Some PrometheusClusterRole;
                           instance := inl (StatusNotFound "no instance") |};
              applied := [] |} in
  @deployKubeStateMetrics RemoteScript scriptedRemote s
  = (None, (@deployPrometheusClusterRole RemoteScript scriptedRemote s).2).
Proof.
  intros s.
  apply (proj1 (@deployKubeStateMetrics_swallows RemoteScript scriptedRemote s)).
  vm_compute. eauto.
Defined.

Lemma addStorageConfig_not_requested_witness :
  let s := {| remote := {| readiness := λ _, (true, true, None);
                           failingDoc := None;
                           instance := inr {| Storage := None |} |};
              applied := [] |} in
  let cs := {| prometheusConfiguration :=
                 Some {| InstallationMode := PrometheusInstallationModeKubePrometheus;
                         StorageClassName := Some "";
                         StorageQuantity := Some 5%Z |} |} in
  @addStorageConfig RemoteScript scriptedRemote cs s = (None, s).
Proof.
  intros s cs. apply (@addStorageConfig_not_requested RemoteScript scriptedRemote cs s).
  right. reflexivity.
Defined.

Lemma addStorageConfig_requested_witness :
  let s := {| remote := {| readiness := λ _, (true, true, None);
                           failingDoc := None;
                           instance := inr {| Storage := None |} |};
              applied := [] |} in
  let p := {| InstallationMode := PrometheusInstallationModeKubePrometheus;
              StorageClassName := Some "fast";
              StorageQuantity := None |} in
  let cs := {| prometheusConfiguration := Some p |} in
  @addStorageConfig RemoteScript scriptedRemote cs s
  = @updateStep RemoteScript scriptedRemote
      {| Storage := Some {| VolumeStorageClassName := Some "fast";
                            StorageRequest := Some 40000000%Z |} |} s.
Proof.
  intros s p cs.
  apply (@addStorageConfig_requested RemoteScript scriptedRemote cs s p "fast");
    [reflexivity | reflexivity | discriminate].
Defined.

Lemma Set_insert_erase_witness :
  Set_erase (Set_insert ∅ "entry") "entry" = ∅.
Proof.
  apply (proj2 (proj2 (proj2 (proj2 (proj2 (Set_insert_erase ∅ "entry")))))).
  reflexivity.
Defined.
